(** * Secure file upload server (Flask): validation pipeline

    A shallow embedding of [server/python-flask/app.py].  Python [str]
    values are lists of characters, [bytes] are lists of [Byte.byte], the
    file system is a finite map from paths to file contents, and every
    call that the source wraps in a [try] can fail through an explicit
    flag of the host environment. *)

From Stdlib Require Import Ascii String ZArith List Lia.
From stdpp Require Import gmap strings list fin_maps.
From Equations Require Import Equations.

Open Scope string_scope.
Open Scope list_scope.
Open Scope Z_scope.

(** Python text: a list of characters.  String literals are read as such
    lists.  The model covers ASCII file names; code points of 128 and
    above stand for characters without an ASCII rendering. *)
Abbreviation str := (list ascii).
Coercion list_ascii_of_string : string >-> list.

(* ------------------------------------------------------------------ *)
(** ** Built-in [str] methods used by the source *)
(* ------------------------------------------------------------------ *)

Module PyStr.

Definition char_eqb (a b : ascii) : bool := bool_decide (a = b).

(** [c.lower()] on one character: only 'A'..'Z' change. *)
Definition lower_char (c : ascii) : ascii :=
  let n := N_of_ascii c in
  if ((65 <=? n) && (n <=? 90))%N then ascii_of_N (n + 32) else c.

(** [s.lower()] *)
Definition lower (s : str) : str := map lower_char s.

(** [s.startswith(prefix)] *)
Fixpoint startswith (s prefix : str) : bool :=
  match prefix, s with
  | [], _ => true
  | _ :: _, [] => false
  | p :: prefix', c :: s' => char_eqb c p && startswith s' prefix'
  end.

(** [s.rfind(c)] for a one-character needle: the highest index holding
    [c], or -1.  [i] is the index of the head of [s], [last] the best
    index seen so far. *)
Fixpoint rfind_from (s : str) (c : ascii) (i last : Z) : Z :=
  match s with
  | [] => last
  | x :: s' => rfind_from s' c (i + 1) (if char_eqb x c then i else last)
  end.

Definition rfind (s : str) (c : ascii) : Z := rfind_from s c 0 (-1).

(** Slices [s[:i]], [s[i:]] and [s[i:j]] for indices that are not
    negative. *)
Definition upto (s : str) (i : Z) : str := take (Z.to_nat i) s.
Definition from (s : str) (i : Z) : str := drop (Z.to_nat i) s.
Definition slice (s : str) (i j : Z) : str :=
  take (Z.to_nat j - Z.to_nat i) (drop (Z.to_nat i) s).

(** [s.replace(old, new)] for one-character [old] and [new]. *)
Definition replace_char (old new : ascii) (s : str) : str :=
  map (fun c => if char_eqb c old then new else c) s.

(** [s.split(sep)] for a one-character separator: every separator cuts,
    so empty fields are kept.  [cur] is the field being read, reversed. *)
Fixpoint split_from (sep : ascii) (s : str) (cur : str) : list str :=
  match s with
  | [] => [rev cur]
  | c :: s' =>
      if char_eqb c sep then rev cur :: split_from sep s' []
      else split_from sep s' (c :: cur)
  end.

Definition split (sep : ascii) (s : str) : list str := split_from sep s [].

(** [c.isspace()] on the ASCII range. *)
Definition isspace (c : ascii) : bool :=
  let n := N_of_ascii c in
  (((9 <=? n) && (n <=? 13)) || ((28 <=? n) && (n <=? 32)))%N.

(** [s.split()]: fields separated by runs of white space, no empty
    field. *)
Fixpoint split_ws_from (s : str) (cur : str) : list str :=
  match s with
  | [] => match cur with [] => [] | _ => [rev cur] end
  | c :: s' =>
      if isspace c then
        match cur with
        | [] => split_ws_from s' []
        | _ => rev cur :: split_ws_from s' []
        end
      else split_ws_from s' (c :: cur)
  end.

Definition split_ws (s : str) : list str := split_ws_from s [].

(** [sep.join(parts)] *)
Fixpoint join (sep : str) (parts : list str) : str :=
  match parts with
  | [] => []
  | [p] => p
  | p :: rest => p ++ sep ++ join sep rest
  end.

(** [s.lstrip(chars)], [s.rstrip(chars)], [s.strip(chars)] *)
Fixpoint lstrip (chars : str) (s : str) : str :=
  match s with
  | [] => []
  | c :: s' => if bool_decide (c ∈ chars) then lstrip chars s' else s
  end.

Definition rstrip (chars : str) (s : str) : str :=
  rev (lstrip chars (rev s)).

Definition strip (chars : str) (s : str) : str :=
  rstrip chars (lstrip chars s).

End PyStr.

(* ------------------------------------------------------------------ *)
(** ** [os.path] on POSIX *)
(* ------------------------------------------------------------------ *)

Module PosixPath.
Import PyStr.

(** [os.path.splitext(p)]: the extension starts at the last dot of the
    last path component, unless that component has only leading dots
    before it. *)
Definition splitext (p : str) : str * str :=
  let sepIndex := rfind p "/" in
  let dotIndex := rfind p "." in
  if dotIndex >? sepIndex then
    (* skip all leading dots *)
    if existsb (fun c => negb (char_eqb c "."))
               (slice p (sepIndex + 1) dotIndex)
    then (upto p dotIndex, from p dotIndex)
    else (p, [])
  else (p, []).

(** [os.path.isabs(p)] *)
Definition isabs (p : str) : bool := startswith p "/".

(** [os.path.join(a, b)] *)
Definition join (a b : str) : str :=
  if startswith b "/" then b
  else match last a with
       | None => b
       | Some c => if char_eqb c "/" then a ++ b else a ++ "/" ++ b
       end.

(** One turn of the loop of [normpath] over the components. *)
Definition norm_step (initial_slashes : nat) (new_comps : list str)
    (comp : str) : list str :=
  if bool_decide (comp = []) || bool_decide (comp = ".") then new_comps
  else if negb (bool_decide (comp = ".."))
          || ((initial_slashes =? 0)%nat && bool_decide (new_comps = []))
          || bool_decide (last new_comps = Some (".." : str))
  then new_comps ++ [comp]
  else match new_comps with
       | [] => new_comps
       | _ => removelast new_comps
       end.

(** [os.path.normpath(path)] *)
Definition normpath (path : str) : str :=
  match path with
  | [] => "."
  | _ =>
      let initial_slashes :=
        if startswith path "/" then
          if startswith path "//" && negb (startswith path "///")
          then 2%nat else 1%nat
        else 0%nat in
      let comps := split "/" path in
      let new_comps := fold_left (norm_step initial_slashes) comps [] in
      let path := PyStr.join "/" new_comps in
      let path := repeat "/"%char initial_slashes ++ path in
      match path with [] => "." | _ => path end
  end.

End PosixPath.

Import PyStr PosixPath.


(* ------------------------------------------------------------------ *)
(** ** Library calls: werkzeug, binascii, datetime *)
(* ------------------------------------------------------------------ *)

Module Werkzeug.
Import PyStr.

(** Characters that [_filename_ascii_strip_re], the pattern
    [[^A-Za-z0-9_.-]], leaves in place. *)
Definition safe_char (c : ascii) : bool :=
  let n := N_of_ascii c in
  (((65 <=? n) && (n <=? 90)) || ((97 <=? n) && (n <=? 122))
   || ((48 <=? n) && (n <=? 57))
   || (n =? 95) || (n =? 46) || (n =? 45))%N.

(** [filename.encode("ascii", "ignore").decode("ascii")] after NFKD
    normalisation, on the modelled range: characters outside ASCII go. *)
Definition ascii_ignore (s : str) : str :=
  List.filter (fun c => (N_of_ascii c <? 128)%N) s.

(** [werkzeug.utils.secure_filename] on POSIX ([os.sep] is "/",
    [os.path.altsep] is [None], [os.name] is not "nt"). *)
Definition secure_filename (filename : str) : str :=
  let filename := ascii_ignore filename in
  let filename := replace_char "/" " " filename in
  strip "._" (List.filter safe_char (PyStr.join "_" (split_ws filename))).

End Werkzeug.

(** [binascii.hexlify]: two lower-case hexadecimal digits per byte. *)
Definition hex_digit (n : N) : ascii :=
  if (n <? 10)%N then ascii_of_N (48 + n) else ascii_of_N (87 + n).

Definition hexlify (data : list Byte.byte) : str :=
  flat_map (fun b => let n := Byte.to_N b in
                     [hex_digit (n / 16); hex_digit (n mod 16)]) data.

(** A reading of [datetime.now()]. *)
Record datetime := {
  year : nat; month : nat; day : nat;
  hour : nat; minute : nat; second : nat
}.

Definition digit (n : nat) : ascii := ascii_of_nat (48 + n mod 10).
Definition pad2 (n : nat) : str := [digit (n / 10); digit n].
Definition pad4 (n : nat) : str :=
  [digit (n / 1000); digit (n / 100); digit (n / 10); digit n].

(** [t.strftime('%Y%m%d_%H%M%S')] *)
Definition strftime (t : datetime) : str :=
  pad4 (year t) ++ pad2 (month t) ++ pad2 (day t) ++ "_"
  ++ pad2 (hour t) ++ pad2 (minute t) ++ pad2 (second t).

(* ------------------------------------------------------------------ *)
(** ** Configuration *)
(* ------------------------------------------------------------------ *)

Definition MAX_FILE_SIZE : Z := 10 * 1024 * 1024.

Definition ALLOWED_EXTENSIONS : gset str :=
  list_to_set [".pdf" : str; ".doc" : str; ".docx" : str; ".txt" : str;
               ".jpg" : str; ".jpeg" : str; ".png" : str; ".gif" : str].

Definition ALLOWED_MIME_TYPES : gmap str (list str) :=
  list_to_map
    ([ ("application/pdf" : str, [".pdf" : str]);
       ("application/msword" : str, [".doc" : str]);
       ("application/vnd.openxmlformats-officedocument.wordprocessingml.document" : str,
        [".docx" : str]);
       ("text/plain" : str, [".txt" : str]);
       ("image/jpeg" : str, [".jpg" : str; ".jpeg" : str]);
       ("image/png" : str, [".png" : str]);
       ("image/gif" : str, [".gif" : str]) ]).

(** [app.config['MAX_CONTENT_LENGTH']] *)
Definition MAX_CONTENT_LENGTH : Z := MAX_FILE_SIZE.

(* ------------------------------------------------------------------ *)
(** ** The host: everything the handler reaches outside its own code *)
(* ------------------------------------------------------------------ *)

(** The exceptions the handler meets.  [ClientDisconnected] is the one
    werkzeug raises when the body ends before its declared length. *)
Inductive exn :=
| RequestEntityTooLarge | OSError | MagicException | ClientDisconnected.

Inductive outcome (A : Type) :=
| Returns (a : A)
| Raises (e : exn).
Arguments Returns {A} a.
Arguments Raises {A} e.

(** The file system: regular files by path. *)
Abbreviation filesys := (gmap str (list Byte.byte)).

(** What stays fixed while one request is served.  Each [_fails] set
    lists the paths on which that one system call raises [OSError]; the
    calls fail independently of each other, as transient faults do. *)
Record Host := {
  upload_folder : str;                 (* app.config['UPLOAD_FOLDER'] *)
  getcwd : outcome str;                (* os.getcwd() *)
  clock : nat -> datetime;             (* successive datetime.now() *)
  urandom : nat -> Byte.byte;          (* the bytes os.urandom draws *)
  sha256 : list Byte.byte -> list Byte.byte;   (* hashlib digest *)
  libmagic : str -> list Byte.byte -> outcome str;  (* Magic.from_file *)
  stat_fails : gset str;               (* os.path.getsize *)
  open_fails : gset str;               (* open(path, 'rb') *)
  unlink_fails : gset str;             (* os.remove *)
  write_fails : gset str               (* FileStorage.save *)
}.

Module OS.

(** [os.path.exists(path)] *)
Definition path_exists (fs : filesys) (path : str) : bool :=
  bool_decide (is_Some (fs !! path)).

(** [os.path.getsize(path)] *)
Definition getsize (h : Host) (fs : filesys) (path : str) : outcome Z :=
  match fs !! path with
  | None => Raises OSError
  | Some data =>
      if bool_decide (path ∈ stat_fails h) then Raises OSError
      else Returns (Z.of_nat (length data))
  end.

(** [os.remove(path)] *)
Definition remove (h : Host) (fs : filesys) (path : str) : outcome filesys :=
  match fs !! path with
  | None => Raises OSError
  | Some _ =>
      if bool_decide (path ∈ unlink_fails h) then Raises OSError
      else Returns (delete path fs)
  end.

(** [open(path, 'rb')]: the bytes still to be read. *)
Definition open_rb (h : Host) (fs : filesys) (path : str)
  : outcome (list Byte.byte) :=
  match fs !! path with
  | None => Raises OSError
  | Some data =>
      if bool_decide (path ∈ open_fails h) then Raises OSError
      else Returns data
  end.

(** [os.path.abspath(path)] *)
Definition abspath (h : Host) (path : str) : outcome str :=
  if isabs path then Returns (normpath path)
  else match getcwd h with
       | Returns cwd => Returns (normpath (PosixPath.join cwd path))
       | Raises e => Raises e
       end.

(** [secrets.token_hex(nbytes)] *)
Definition token_bytes (h : Host) (nbytes : nat) : list Byte.byte :=
  map (urandom h) (seq 0 nbytes).

Definition token_hex (h : Host) (nbytes : nat) : str :=
  hexlify (token_bytes h nbytes).

End OS.

(* ------------------------------------------------------------------ *)
(** ** Security utilities *)
(* ------------------------------------------------------------------ *)

Import Werkzeug.

(** [get_file_magic_type]: the detected MIME type, [None] when the
    detection raises. *)
Definition get_file_magic_type (h : Host) (fs : filesys) (file_path : str)
  : option str :=
  match fs !! file_path with
  | None => None
  | Some data =>
      match libmagic h file_path data with
      | Returns detected_mime => Some detected_mime
      | Raises _ => None
      end
  end.

(** The three messages of [is_allowed_file_type]. *)
Definition reason_extension (ext : str) : str :=
  "Extension " ++ ext ++ " not allowed".
Definition reason_mime (detected_mime : str) : str :=
  "MIME type " ++ detected_mime ++ " not allowed".
Definition reason_mismatch (ext detected_mime : str) : str :=
  "Extension " ++ ext ++ " does not match detected MIME type " ++ detected_mime.

(** [is_allowed_file_type] *)
Definition is_allowed_file_type (filename detected_mime : str)
  : bool * option str :=
  let ext := lower (splitext filename).2 in
  (* Check extension *)
  if negb (bool_decide (ext ∈ ALLOWED_EXTENSIONS)) then
    (false, Some (reason_extension ext))
  else
    (* Check MIME type *)
    match ALLOWED_MIME_TYPES !! detected_mime with
    | None => (false, Some (reason_mime detected_mime))
    | Some exts =>
        (* Verify extension matches MIME type *)
        if negb (bool_decide (ext ∈ exts)) then
          (false, Some (reason_mismatch ext detected_mime))
        else (true, None)
    end.

(** [generate_secure_filename]: the clock and the entropy source are read
    from the host. *)
Definition generate_secure_filename (h : Host) (original_filename : str)
  : str :=
  (* Sanitize the original filename *)
  let safe_name := secure_filename original_filename in
  (* Get extension *)
  let '(name, ext) := splitext safe_name in
  (* Generate unique identifier *)
  let timestamp := strftime (clock h 0) in
  let random_hash := OS.token_hex h 8 in
  (* Limit name length *)
  let name := match name with [] => ("file" : str) | _ => take 50 name end in
  (* Construct secure filename *)
  name ++ "_" ++ timestamp ++ "_" ++ random_hash ++ ext.

(** [is_path_safe] *)
Definition is_path_safe (h : Host) (file_path base_directory : str) : bool :=
  match OS.abspath h base_directory with
  | Raises _ => false
  | Returns abs_base =>
      match OS.abspath h file_path with
      | Raises _ => false
      | Returns abs_file => startswith abs_file abs_base
      end
  end.

(** A [hashlib] object holds the message fed so far; [update] appends to
    it and [hexdigest] renders the digest of the whole. *)
Record hash_obj := { fed : list Byte.byte }.

Definition hash_update (o : hash_obj) (chunk : list Byte.byte) : hash_obj :=
  {| fed := fed o ++ chunk |}.

Definition hexdigest (h : Host) (o : hash_obj) : str :=
  hexlify (sha256 h (fed o)).

(** The loop [for chunk in iter(lambda: f.read(4096), b'')]: [f] is what
    is left of the file; a read takes up to 4096 bytes from its front and
    the loop ends at the first empty read. *)
Definition read_result {A} (a : A) : {b : A | a = b} := exist _ a eq_refl.

(** The block size of [f.read(4096)]. *)
Definition block_size : nat := 4096.

Local Opaque block_size.

Equations? hash_chunks (o : hash_obj) (f : list Byte.byte) : hash_obj
  by wf (length f) lt :=
  hash_chunks o f with read_result (take block_size f) := {
    | exist _ [] _ => o
    | exist _ (b :: chunk) _ =>
        hash_chunks (hash_update o (b :: chunk)) (drop block_size f) }.
Proof.
  destruct f as [|b0 f].
  - match goal with H : take _ [] = _ |- _ =>
      rewrite take_nil in H; discriminate H end.
  - rewrite length_drop. cbn [length].
    assert (0 < block_size)%nat
      by (with_strategy transparent [block_size] (unfold block_size; lia)).
    lia.
Qed.

Local Transparent block_size.

(** [calculate_file_hash] with the default algorithm, 'sha256'. *)
Definition calculate_file_hash (h : Host) (fs : filesys) (file_path : str)
  : outcome str :=
  let hash_obj := {| fed := [] |} in
  match OS.open_rb h fs file_path with
  | Raises e => Raises e
  | Returns f => Returns (hexdigest h (hash_chunks hash_obj f))
  end.

Record ScanVerdict := { clean : bool; threats : list str }.

(** [scan_file_for_viruses]: the placeholder of the source. *)
Definition scan_file_for_viruses (fs : filesys) (file_path : str)
  : outcome ScanVerdict :=
  Returns {| clean := true; threats := [] |}.

(** [validate_file_size] *)
Definition validate_file_size (h : Host) (fs : filesys) (file_path : str)
    (max_size : Z) : bool * Z :=
  match OS.getsize h fs file_path with
  | Returns file_size => (file_size <=? max_size, file_size)
  | Raises _ => (false, 0)
  end.

(** [cleanup_file]: a failing removal is logged and goes no further. *)
Definition cleanup_file (h : Host) (fs : filesys) (file_path : str)
  : filesys :=
  if OS.path_exists fs file_path then
    match OS.remove h fs file_path with
    | Returns fs' => fs'
    | Raises _ => fs
    end
  else fs.

(* ------------------------------------------------------------------ *)
(** ** The upload route *)
(* ------------------------------------------------------------------ *)

(** An uploaded part, [werkzeug.datastructures.FileStorage]. *)
Record FileStorage := { filename : str; stream : list Byte.byte }.

(** A request as the client sends it: the [Content-Length] header if
    there is one, and the multipart body, which is the parts, [framing]
    bytes of boundaries, part headers and form fields up to the end of
    the closing delimiter, and [epilogue] bytes after it (the final line
    break). *)
Record Request := {
  content_length : option Z;
  files : gmap str FileStorage;
  framing : nat;
  epilogue : nat
}.

Definition part_bytes (part : str * FileStorage) : Z :=
  Z.of_nat (length (stream part.2)).

(** The bytes of the body up to the end of its closing delimiter: what
    the multipart parser needs to see. *)
Definition needed_length (request : Request) : Z :=
  Z.of_nat (framing request)
  + foldr Z.add 0 (part_bytes <$> map_to_list (files request)).

(** The bytes of the whole body. *)
Definition body_length (request : Request) : Z :=
  needed_length request + Z.of_nat (epilogue request).

(** [request.files]: the first access parses the form from the input
    stream, which werkzeug wraps in a [LimitedStream]; the server is the
    one that [app.run] starts.
    - A declared length over [MAX_CONTENT_LENGTH] raises
      [RequestEntityTooLarge] before anything is read.
    - With a declared length the stream ends after that many bytes.  A
      body cut before the end of its closing delimiter makes the
      multipart parser fail; the failure is silenced and no part at all
      is left.  A body that ends before the declared length makes the
      stream raise [ClientDisconnected].
    - Without a declared length the stream is capped at
      [MAX_CONTENT_LENGTH]: a read attempted after that many bytes
      raises [RequestEntityTooLarge], and the parser reads until the
      stream is empty. *)
Definition request_files (request : Request) : outcome (gmap str FileStorage) :=
  match content_length request with
  | Some n =>
      if n >? MAX_CONTENT_LENGTH then Raises RequestEntityTooLarge
      else if n <? needed_length request then Returns ∅
      else if body_length request <? n then Raises ClientDisconnected
      else Returns (files request)
  | None =>
      if body_length request >=? MAX_CONTENT_LENGTH
      then Raises RequestEntityTooLarge
      else Returns (files request)
  end.

(** [file.save(dst)].  A failing save is taken to fail when the
    destination is opened, before any byte is written. *)
Definition save (h : Host) (fs : filesys) (file : FileStorage) (dst : str)
  : outcome filesys :=
  if bool_decide (dst ∈ write_fails h) then Raises OSError
  else Returns (<[dst := stream file]> fs).

(** The [error] field of a failure body.  The two messages that format a
    number keep it as data. *)
Inductive message :=
| Text (s : str)
| Reason (error_msg : option str)   (* the reason of is_allowed_file_type *)
| TypeNotAllowed            (* 'File type not allowed. Allowed types: ...' *)
| SizeExceeds (file_size : Z)   (* 'File size (..MB) exceeds maximum ...' *)
| TooLarge.                 (* 'File too large. Maximum size: ..MB' *)

(** The JSON body. *)
Inductive body :=
| Failure (error : message)
| Success (url name : str) (size : Z) (mime_type hash : str)
          (uploaded_at : datetime).

(** A response: body and status code. *)
Definition response : Type := body * Z.

Section Pipeline.

(** The scanner binding; the source binds [scan_file_for_viruses]. *)
Variable scan : filesys -> str -> outcome ScanVerdict.

(** The inner [try] of [upload_file], entered once the file is saved.
    Its [except] clause cleans up and raises again. *)
Definition validate_stored (h : Host) (fs : filesys) (file : FileStorage)
    (secure_name file_path : str) : filesys * outcome response :=
  (* SECURITY CHECK #2: Verify file size *)
  let '(size_valid, file_size) :=
    validate_file_size h fs file_path MAX_FILE_SIZE in
  if negb size_valid then
    (cleanup_file h fs file_path,
     Returns (Failure (SizeExceeds file_size), 400))
  else
    (* SECURITY CHECK #3: Verify file type using magic numbers *)
    match get_file_magic_type h fs file_path with
    | None | Some [] =>
        (cleanup_file h fs file_path,
         Returns (Failure (Text "Could not verify file type"), 400))
    | Some detected_mime =>
        (* SECURITY CHECK #4: Validate file type against allowed types *)
        match is_allowed_file_type (filename file) detected_mime with
        | (false, error_msg) =>
            (cleanup_file h fs file_path,
             Returns (Failure (Reason error_msg), 400))
        | (true, _) =>
            (* SECURITY CHECK #5: Virus scanning *)
            match scan fs file_path with
            | Raises e => (cleanup_file h fs file_path, Raises e)
            | Returns scan_result =>
                if negb (clean scan_result) then
                  (cleanup_file h fs file_path,
                   Returns (Failure (Text "File failed security scan"), 400))
                else
                  (* Calculate file hash for integrity *)
                  match calculate_file_hash h fs file_path with
                  | Raises e => (cleanup_file h fs file_path, Raises e)
                  | Returns file_hash =>
                      (fs,
                       Returns
                         (Success ("/api/files/" ++ secure_name)
                                  (filename file) file_size detected_mime
                                  file_hash (clock h 1), 200))
                  end
            end
        end
    end.

(** The outer [except] clauses of [upload_file]. *)
Definition on_error (e : exn) : response :=
  match e with
  | RequestEntityTooLarge => (Failure TooLarge, 413)
  | _ => (Failure (Text "Upload failed. Please try again."), 500)
  end.

(** [upload_file] over a scanner binding. *)
Definition upload_pipeline (h : Host) (fs : filesys) (request : Request)
  : filesys * response :=
  match request_files request with
  | Raises e => (fs, on_error e)
  | Returns request_files =>
      (* VALIDATION #1: Check if file is in request *)
      match request_files !! ("file" : str) with
      | None => (fs, (Failure (Text "No file provided"), 400))
      | Some file =>
          (* VALIDATION #2: Check if file has a filename *)
          if bool_decide (filename file = []) then
            (fs, (Failure (Text "No file selected"), 400))
          else
            (* VALIDATION #3: Initial extension check *)
            let ext := lower (splitext (filename file)).2 in
            if negb (bool_decide (ext ∈ ALLOWED_EXTENSIONS)) then
              (fs, (Failure TypeNotAllowed, 400))
            else
              (* Ensure upload directory exists: creating the directory
                 changes no regular file, and [filesys] holds those only *)
              (* Generate secure filename *)
              let secure_name := generate_secure_filename h (filename file) in
              let file_path := PosixPath.join (upload_folder h) secure_name in
              (* SECURITY CHECK #1: Verify path safety *)
              if negb (is_path_safe h file_path (upload_folder h)) then
                (fs, (Failure (Text "Invalid file path"), 400))
              else
                (* Save file temporarily for validation *)
                match save h fs file file_path with
                | Raises e => (fs, on_error e)
                | Returns fs1 =>
                    match validate_stored h fs1 file secure_name file_path with
                    | (fs2, Returns r) => (fs2, r)
                    | (fs2, Raises e) => (fs2, on_error e)
                    end
                end
      end
  end.

End Pipeline.

(** [upload_file], the handler of [POST /api/upload]. *)
Definition upload_file (h : Host) (fs : filesys) (request : Request)
  : filesys * response :=
  upload_pipeline scan_file_for_viruses h fs request.

(** Where [upload_file] stores the part of a request. *)
Definition storage_path (h : Host) (file : FileStorage) : str :=
  PosixPath.join (upload_folder h)
                 (generate_secure_filename h (filename file)).

(* ------------------------------------------------------------------ *)
(** ** Specification vocabulary *)
(* ------------------------------------------------------------------ *)

(** The three checks of [is_allowed_file_type], as the allow-lists state
    them. *)
Definition ext_listed (ext : str) : Prop := ext ∈ ALLOWED_EXTENSIONS.
Definition mime_listed (detected_mime : str) : Prop :=
  is_Some (ALLOWED_MIME_TYPES !! detected_mime).
Definition ext_registered (ext detected_mime : str) : Prop :=
  exists exts, ALLOWED_MIME_TYPES !! detected_mime = Some exts /\ ext ∈ exts.

(** The same request with every part renamed by [f]. *)
Definition rename (f : str -> str) (request : Request) : Request :=
  {| content_length := content_length request;
     files := (fun file => {| filename := f (filename file);
                              stream := stream file |}) <$> files request;
     framing := framing request;
     epilogue := epilogue request |}.

(** The request got as far as the write: the form was parsed, the part
    named "file" has a name whose extension passed the gate, the path
    check passed and [file.save] left [fs1]. *)
Definition stored (h : Host) (fs : filesys) (request : Request)
    (file : FileStorage) (fs1 : filesys) : Prop :=
  request_files request = Returns (files request)
  /\ files request !! ("file" : str) = Some file
  /\ filename file <> []
  /\ lower (splitext (filename file)).2 ∈ ALLOWED_EXTENSIONS
  /\ is_path_safe h (storage_path h file) (upload_folder h) = true
  /\ save h fs file (storage_path h file) = Returns fs1.

(** The digest of a whole content taken in one piece, as a second reader
    of the stored bytes computes it. *)
Definition digest_of (h : Host) (content : list Byte.byte) : str :=
  hexlify (sha256 h content).

(** Lower-case hexadecimal digits. *)
Definition lower_hex_char (c : ascii) : bool :=
  let n := N_of_ascii c in
  (((48 <=? n) && (n <=? 57)) || ((97 <=? n) && (n <=? 102)))%N.

(** PathGuard as the specification words it: [cand], in canonical
    absolute form, is the root [root] or lies below it. *)
Definition is_root_or_descendant (root cand : str) : bool :=
  bool_decide (cand = root)
  || startswith cand (match last root with
                      | Some "/"%char => root
                      | _ => root ++ "/"
                      end).

Definition spec_path_guard (h : Host) (file_path base_directory : str)
  : bool :=
  match OS.abspath h base_directory, OS.abspath h file_path with
  | Returns abs_base, Returns abs_file =>
      is_root_or_descendant abs_base abs_file
  | _, _ => false
  end.

(** Every character of [s] passes the test [P]. *)
Definition all_chars (P : ascii -> bool) (s : str) : Prop :=
  Forall (fun c => P c = true) s.

(** A safe character other than the dot. *)
Definition plain_char (c : ascii) : bool :=
  safe_char c && negb (char_eqb c ".").

(** The base that [generate_secure_filename] keeps of a sanitised name. *)
Definition kept_base (safe_name : str) : str :=
  let name := (splitext safe_name).1 in
  match name with [] => ("file" : str) | _ => take 50 name end.

(** The part that [generate_secure_filename] puts between the base and
    the extension. *)
Definition name_suffix (h : Host) : str :=
  "_" ++ strftime (clock h 0) ++ "_" ++ OS.token_hex h 8.

(** The upper-case form of a lower-case letter, by character code;
    every other character is left as it is. *)
Definition upper_of (c : ascii) : ascii :=
  let n := N_of_ascii c in
  if ((97 <=? n) && (n <=? 122))%N then ascii_of_N (n - 32) else c.

(** [x] spells [y] with any of its letters in upper case. *)
Definition case_variant (x y : str) : Prop :=
  Forall2 (fun a b => a = b \/ a = upper_of b) x y.

(* ------------------------------------------------------------------ *)
(** ** A concrete host and requests, to run the handler on *)
(* ------------------------------------------------------------------ *)

Module Fixture.
Import Byte.

(** A small signature table standing for libmagic's database. *)
Definition signature_mime (content : list byte) : str :=
  match content with
  | [] => "application/x-empty"
  | xff :: xd8 :: xff :: _ => "image/jpeg"
  | x25 :: x50 :: x44 :: x46 :: _ => "application/pdf"
  | x4d :: x5a :: _ => "application/x-dosexec"
  | _ => "application/octet-stream"
  end.

(** A one-byte checksum standing for the digest. *)
Definition checksum (content : list byte) : list byte :=
  [fold_left (fun acc b =>
                default x00 (of_N ((to_N acc + to_N b) mod 256)))
             content x00].

Definition instant : datetime :=
  {| year := 2024; month := 3; day := 9;
     hour := 7; minute := 5; second := 59 |}.

(** Every system call succeeds. *)
Definition host : Host :=
  {| upload_folder := "/srv/app/uploads";
     getcwd := Returns ("/srv/app" : str);
     clock := fun _ => instant;
     urandom := fun i => default x00 (of_N (N.of_nat (17 * i + 3) mod 256));
     sha256 := checksum;
     libmagic := fun _ content => Returns (signature_mime content);
     stat_fails := ∅; open_fails := ∅; unlink_fails := ∅;
     write_fails := ∅ |}.

(** The same host at a later draw of the entropy source. *)
Definition reseeded : Host :=
  {| upload_folder := upload_folder host; getcwd := getcwd host;
     clock := clock host;
     urandom := fun i => default x00 (of_N (N.of_nat (29 * i + 7) mod 256));
     sha256 := sha256 host; libmagic := libmagic host;
     stat_fails := ∅; open_fails := ∅;
     unlink_fails := ∅; write_fails := ∅ |}.

(** The same host with [os.remove] failing on [paths]. *)
Definition read_only (paths : list str) : Host :=
  {| upload_folder := upload_folder host; getcwd := getcwd host;
     clock := clock host; urandom := urandom host;
     sha256 := sha256 host; libmagic := libmagic host;
     stat_fails := ∅; open_fails := ∅;
     unlink_fails := list_to_set paths; write_fails := ∅ |}.

(** The same host with [os.path.getsize] failing on [paths]. *)
Definition stat_broken (paths : list str) : Host :=
  {| upload_folder := upload_folder host; getcwd := getcwd host;
     clock := clock host; urandom := urandom host;
     sha256 := sha256 host; libmagic := libmagic host;
     stat_fails := list_to_set paths; open_fails := ∅;
     unlink_fails := ∅; write_fails := ∅ |}.

(** The same host with [open] failing on [paths]. *)
Definition open_broken (paths : list str) : Host :=
  {| upload_folder := upload_folder host; getcwd := getcwd host;
     clock := clock host; urandom := urandom host;
     sha256 := sha256 host; libmagic := libmagic host;
     stat_fails := ∅; open_fails := list_to_set paths;
     unlink_fails := ∅; write_fails := ∅ |}.

(** The same host with a detector that raises on everything. *)
Definition magic_broken : Host :=
  {| upload_folder := upload_folder host; getcwd := getcwd host;
     clock := clock host; urandom := urandom host;
     sha256 := sha256 host;
     libmagic := fun _ _ => Raises MagicException;
     stat_fails := ∅; open_fails := ∅;
     unlink_fails := ∅; write_fails := ∅ |}.

(** A request with one part, "file", sent in chunks without a declared
    length; the boundaries and the part's headers take 192 bytes and a
    line break ends the body. *)
Definition upload (name : str) (content : list byte) : Request :=
  {| content_length := None;
     files := {[ ("file" : str) :=
                   {| filename := name; stream := content |} ]};
     framing := 192; epilogue := 2 |}.

(** The same with a declared length. *)
Definition upload_declaring (n : Z) (name : str) (content : list byte)
  : Request :=
  {| content_length := Some n; files := files (upload name content);
     framing := framing (upload name content);
     epilogue := epilogue (upload name content) |}.

Definition jpeg_bytes : list byte := [xff; xd8; xff; xe0; x00; x10].
Definition exe_bytes : list byte := [x4d; x5a; x90; x00].

(** A JPEG image under its own name. *)
Definition photo : FileStorage :=
  {| filename := "photo.jpg"; stream := jpeg_bytes |}.

(** An executable under an image name. *)
Definition payload : FileStorage :=
  {| filename := "payload.jpg"; stream := exe_bytes |}.

(** A body one byte over the ceiling. *)
Definition oversized : list byte :=
  repeat x00 (Z.to_nat (MAX_FILE_SIZE + 1)).

(** That body under an image name. *)
Definition huge : FileStorage :=
  {| filename := "huge.jpg"; stream := oversized |}.

(** The host at another call within the same second, the entropy source
    giving the same eight bytes again and other bytes after them. *)
Definition replayed : Host :=
  {| upload_folder := upload_folder host; getcwd := getcwd host;
     clock := clock host;
     urandom := fun i => if (i <? 8)%nat then urandom host i else x00;
     sha256 := sha256 host; libmagic := libmagic host;
     stat_fails := ∅; open_fails := ∅;
     unlink_fails := ∅; write_fails := ∅ |}.

(** Printable ASCII, tab, line feed and carriage return. *)
Definition text_byte (b : byte) : bool :=
  let n := to_N b in
  (((32 <=? n) && (n <=? 126)) || (n =? 9) || (n =? 10) || (n =? 13))%N.

(** The signature table with libmagic's last resort: content without a
    known signature is [text/plain] when it is all text and
    [application/octet-stream] otherwise. *)
Definition fallback_mime (content : list byte) : str :=
  match content with
  | [] => "application/x-empty"
  | xff :: xd8 :: xff :: _ => "image/jpeg"
  | x25 :: x50 :: x44 :: x46 :: _ => "application/pdf"
  | x4d :: x5a :: _ => "application/x-dosexec"
  | _ => if forallb text_byte content then "text/plain"
         else "application/octet-stream"
  end.

(** The same host with that detector. *)
Definition text_aware : Host :=
  {| upload_folder := upload_folder host; getcwd := getcwd host;
     clock := clock host; urandom := urandom host;
     sha256 := sha256 host;
     libmagic := fun _ content => Returns (fallback_mime content);
     stat_fails := ∅; open_fails := ∅;
     unlink_fails := ∅; write_fails := ∅ |}.

(** Bytes that begin with no signature of the table. *)
Definition blob_bytes : list byte := [x00; x01; x02; x03].

(** Those bytes under a document name. *)
Definition blob : FileStorage :=
  {| filename := "report.pdf"; stream := blob_bytes |}.

(** The five letters of "hello". *)
Definition note_bytes : list byte := [x68; x65; x6c; x6c; x6f].

Definition notes : FileStorage :=
  {| filename := "notes.txt"; stream := note_bytes |}.

(** An image under an upper-case name. *)
Definition shouted : FileStorage :=
  {| filename := "PHOTO.JPG"; stream := jpeg_bytes |}.

End Fixture.

(* ------------------------------------------------------------------ *)
(** ** The download route *)
(* ------------------------------------------------------------------ *)

(** What [get_file] answers: the file as an attachment with the headers
    the handler adds, or a JSON error with its status code. *)
Inductive file_response :=
| Attachment (content : list Byte.byte) (headers : list (str * str))
| Refusal (error : str) (status : Z).

(** The headers set on a served file. *)
Definition security_headers : list (str * str) :=
  [ ("X-Content-Type-Options" : str, "nosniff" : str);
    ("X-Frame-Options" : str, "DENY" : str);
    ("Content-Security-Policy" : str, "default-src 'none'" : str) ].

Section Retrieval.

(** [flask.send_from_directory(directory, path, as_attachment=True)]:
    the content it streams, [None] when it raises (the handler catches
    every exception alike). *)
Variable send_from_directory : filesys -> str -> str -> option (list Byte.byte).

(** Whether a path names an existing directory; [filesys] itself holds
    regular files only. *)
Variable isdir : str -> bool.

(** [get_file], the handler of [GET /api/files/<filename>]. *)
Definition get_file (h : Host) (fs : filesys) (filename : str)
  : file_response :=
  (* Sanitize filename *)
  let safe_filename := secure_filename filename in
  (* Verify path safety *)
  let file_path := PosixPath.join (upload_folder h) safe_filename in
  if negb (is_path_safe h file_path (upload_folder h)) then
    Refusal "Access denied" 403
  else
    (* Check if file exists *)
    if negb (OS.path_exists fs file_path || isdir file_path) then
      Refusal "File not found" 404
    else
      (* Send file with security headers *)
      match send_from_directory fs (upload_folder h) safe_filename with
      | Some content => Attachment content security_headers
      | None => Refusal "Failed to retrieve file" 500
      end.

End Retrieval.

(** The base directory resolves to an absolute path: it is absolute
    itself, or the working directory is known and absolute. *)
Definition resolves_absolute (h : Host) (base_directory : str) : Prop :=
  isabs base_directory = true
  \/ exists cwd, getcwd h = Returns cwd /\ isabs cwd = true.

(** The number of leading slashes that [normpath] keeps. *)
Definition leading_slashes (path : str) : nat :=
  if startswith path "/" then
    if startswith path "//" && negb (startswith path "///")
    then 2%nat else 1%nat
  else 0%nat.

(** A name as [secure_filename] leaves it when it leaves anything: safe
    characters only, neither end a dot or an underscore. *)
Definition clean_name (s : str) : Prop :=
  all_chars safe_char s
  /\ (exists c, head s = Some c /\ c ∉ ("._" : str))
  /\ (exists c, last s = Some c /\ c ∉ ("._" : str)).

Module Served.

(** A file server that streams the regular file at [directory/path]. *)
Definition from_store (fs : filesys) (directory path : str)
  : option (list Byte.byte) :=
  fs !! PosixPath.join directory path.

(** No directory is visible. *)
Definition no_dirs (path : str) : bool := false.

End Served.

(** What [os.path.join] puts between [a] and a relative second part:
    a slash, unless [a] is empty or ends with one. *)
Definition separator_after (a : str) : str :=
  match last a with
  | None => []
  | Some c => if char_eqb c "/" then [] else "/"
  end.

(** The responses that [upload_file] gives before anything is written. *)
Definition early_response (r : response) : Prop :=
  r = (Failure TooLarge, 413)
  \/ r = (Failure (Text "Upload failed. Please try again."), 500)
  \/ r = (Failure (Text "No file provided"), 400)
  \/ r = (Failure (Text "No file selected"), 400)
  \/ r = (Failure TypeNotAllowed, 400)
  \/ r = (Failure (Text "Invalid file path"), 400).

Module Scenario.
Import Byte Fixture.

(** A scanner that finds a threat in every file. *)
Definition alarmed_scan (fs : filesys) (file_path : str)
  : outcome ScanVerdict :=
  Returns {| clean := false; threats := ["Eicar-Test-Signature" : str] |}.

(** A part whose name is only an extension. *)
Definition dotfile : FileStorage :=
  {| filename := ".jpg"; stream := jpeg_bytes |}.

End Scenario.

(* ------------------------------------------------------------------ *)
(** * Properties *)
(* ------------------------------------------------------------------ *)

(** ** Characters and slices *)

Lemma char_eqb_eq (a b : ascii) : char_eqb a b = true <-> a = b.
Proof. unfold char_eqb. apply bool_decide_eq_true. Qed.

(** Lower-casing fixes the dot and the slash and maps nothing else onto
    them. *)
Lemma lower_char_sep (x c : ascii) :
  c = "."%char \/ c = "/"%char ->
  char_eqb (lower_char x) c = char_eqb x c.
Proof.
  intros [-> | ->]; destruct x as [[] [] [] [] [] [] [] []]; reflexivity.
Qed.

Lemma lower_char_idem (x : ascii) : lower_char (lower_char x) = lower_char x.
Proof. destruct x as [[] [] [] [] [] [] [] []]; reflexivity. Qed.

Lemma lower_idem (s : str) : lower (lower s) = lower s.
Proof.
  unfold lower. rewrite map_map. apply map_ext. intros; apply lower_char_idem.
Qed.

Lemma rfind_from_lower (s : str) (c : ascii) (i last : Z) :
  c = "."%char \/ c = "/"%char ->
  rfind_from (lower s) c i last = rfind_from s c i last.
Proof.
  intros Hc. revert i last.
  induction s as [|x s IH]; intros i last; simpl; [reflexivity|].
  rewrite lower_char_sep by assumption. apply IH.
Qed.

Lemma rfind_lower (s : str) (c : ascii) :
  c = "."%char \/ c = "/"%char -> rfind (lower s) c = rfind s c.
Proof. apply rfind_from_lower. Qed.

Lemma lower_take (n : nat) (s : str) : lower (take n s) = take n (lower s).
Proof. unfold lower. symmetry. apply firstn_map. Qed.

Lemma lower_drop (n : nat) (s : str) : lower (drop n s) = drop n (lower s).
Proof. unfold lower. symmetry. apply skipn_map. Qed.

Lemma existsb_not_dot_lower (s : str) :
  existsb (fun c => negb (char_eqb c ".")) (lower s)
  = existsb (fun c => negb (char_eqb c ".")) s.
Proof.
  induction s as [|x s IH]; simpl; [reflexivity|].
  rewrite lower_char_sep by (left; reflexivity). now rewrite IH.
Qed.

(** [splitext] commutes with lower-casing. *)
Lemma splitext_lower (p : str) :
  splitext (lower p) = (lower (splitext p).1, lower (splitext p).2).
Proof.
  unfold splitext.
  rewrite !rfind_lower by (auto).
  unfold slice, upto, from.
  rewrite <- lower_drop, <- lower_take, existsb_not_dot_lower.
  destruct (rfind p "." >? rfind p "/"); [|reflexivity].
  destruct (existsb _ _); simpl; [|reflexivity].
  now rewrite lower_take, lower_drop.
Qed.

Lemma lower_ext_lower (filename : str) :
  lower (splitext (lower filename)).2 = lower (splitext filename).2.
Proof. rewrite splitext_lower. simpl. apply lower_idem. Qed.

(** ** TypePolicy *)

Lemma reasons_distinct (ext detected_mime : str) :
  reason_extension ext <> reason_mime detected_mime
  /\ reason_mime detected_mime <> reason_mismatch ext detected_mime
  /\ reason_extension ext <> reason_mismatch ext detected_mime.
Proof.
  unfold reason_extension, reason_mime, reason_mismatch.
  repeat split.
  - simpl. discriminate.
  - simpl. discriminate.
  - intros H. apply app_inv_head in H. apply app_inv_head in H.
    simpl in H. discriminate.
Qed.

Local Ltac table :=
  repeat split; intros;
  try tauto; try discriminate; try congruence;
  try (exfalso; tauto);
  try match goal with
      | H : (_, _) = (_, _) |- _ => inversion H; subst; clear H
      end;
  try tauto; try congruence.

(** C3: [is_allowed_file_type] runs the extension check, the MIME check
    and the extension-for-MIME check in this order, stops at the first
    that fails with that check's own reason, the three reasons being
    pairwise different, and answers [(True, None)] exactly when all three
    hold; so an accepted pair is jointly in the allow-list mapping and a
    rejected one fails at least one check. *)
Theorem is_allowed_file_type_checks (name detected_mime : str) :
  let ext := lower (splitext name).2 in
  let verdict := is_allowed_file_type name detected_mime in
  (verdict = (false, Some (reason_extension ext)) <-> ~ ext_listed ext)
  /\ (verdict = (false, Some (reason_mime detected_mime))
      <-> ext_listed ext /\ ~ mime_listed detected_mime)
  /\ (verdict = (false, Some (reason_mismatch ext detected_mime))
      <-> ext_listed ext /\ mime_listed detected_mime
          /\ ~ ext_registered ext detected_mime)
  /\ (verdict = (true, None)
      <-> ext_listed ext /\ mime_listed detected_mime
          /\ ext_registered ext detected_mime)
  /\ (verdict.1 = true <-> verdict = (true, None))
  /\ (verdict.1 = false
      <-> ~ ext_listed ext \/ ~ mime_listed detected_mime
          \/ ~ ext_registered ext detected_mime)
  /\ reason_extension ext <> reason_mime detected_mime
  /\ reason_mime detected_mime <> reason_mismatch ext detected_mime
  /\ reason_extension ext <> reason_mismatch ext detected_mime.
Proof.
  intros ext verdict.
  destruct (reasons_distinct ext detected_mime) as (D1 & D2 & D3).
  assert (Hreg : forall exts, ALLOWED_MIME_TYPES !! detected_mime = Some exts ->
                   (ext_registered ext detected_mime <-> ext ∈ exts)).
  { intros exts E. unfold ext_registered. split.
    - intros (exts' & E' & Hin). congruence.
    - intros Hin. eauto. }
  assert (Hnone : ALLOWED_MIME_TYPES !! detected_mime = None ->
                  ~ mime_listed detected_mime
                  /\ ~ ext_registered ext detected_mime).
  { intros E. unfold mime_listed, ext_registered. rewrite E. split.
    - intros [? ?]; discriminate.
    - intros (? & ? & _); discriminate. }
  subst verdict. unfold is_allowed_file_type. fold ext.
  unfold ext_listed, mime_listed in *.
  destruct (decide (ext ∈ ALLOWED_EXTENSIONS)) as [Hext | Hext].
  - rewrite (bool_decide_eq_true_2 _ Hext). simpl.
    destruct (ALLOWED_MIME_TYPES !! detected_mime) as [exts|] eqn:E.
    + specialize (Hreg exts eq_refl).
      assert (Hsome : is_Some (Some exts)) by eauto.
      destruct (decide (ext ∈ exts)) as [Hin | Hin].
      * rewrite (bool_decide_eq_true_2 _ Hin). simpl. table.
      * rewrite (bool_decide_eq_false_2 _ Hin). simpl. table.
    + destruct (Hnone eq_refl) as [N1 N2]. table.
  - rewrite (bool_decide_eq_false_2 _ Hext). simpl. table.
Qed.

(** ** The transport *)

Lemma total_permutation (l1 l2 : list Z) :
  l1 ≡ₚ l2 -> foldr Z.add 0 l1 = foldr Z.add 0 l2.
Proof. induction 1; simpl; lia. Qed.

Lemma total_bounds (l : list (str * FileStorage)) :
  0 <= foldr Z.add 0 (part_bytes <$> l)
  /\ forall part, part ∈ l -> part_bytes part <= foldr Z.add 0 (part_bytes <$> l).
Proof.
  induction l as [|p l [IH0 IH]]; rewrite ?fmap_cons; cbn [foldr].
  - split; [reflexivity|]. intros part Hpart. now apply elem_of_nil in Hpart.
  - assert (0 <= part_bytes p) by (unfold part_bytes; lia).
    split; [lia|]. intros part Hpart.
    apply elem_of_cons in Hpart as [-> | Hpart]; [lia|].
    specialize (IH part Hpart). lia.
Qed.

(** A part is no longer than the body that carries it. *)
Lemma part_within_body (request : Request) (k : str) (file : FileStorage) :
  files request !! k = Some file ->
  Z.of_nat (length (stream file)) <= needed_length request
  /\ needed_length request <= body_length request.
Proof.
  intros Hk. apply elem_of_map_to_list in Hk.
  destruct (total_bounds (map_to_list (files request))) as [_ Hle].
  specialize (Hle _ Hk).
  unfold body_length, needed_length, part_bytes in *. simpl in Hle. lia.
Qed.

Lemma needed_length_rename (f : str -> str) (request : Request) :
  needed_length (rename f request) = needed_length request.
Proof.
  unfold needed_length, rename. cbn [framing files]. f_equal.
  apply total_permutation.
  rewrite map_to_list_fmap, <- list_fmap_compose.
  erewrite list_fmap_ext; [reflexivity|]. now intros i [k file].
Qed.

Lemma body_length_rename (f : str -> str) (request : Request) :
  body_length (rename f request) = body_length request.
Proof. unfold body_length. now rewrite needed_length_rename. Qed.

(** What the handler gets from [request.files] is the parts as sent or,
    from a body cut short, none of them. *)
Lemma request_files_returns (request : Request) parts :
  request_files request = Returns parts ->
  parts = files request \/ parts = ∅.
Proof.
  unfold request_files. repeat case_match; intros [= <-]; auto.
Qed.

(** A request sent without a declared length and below the limit is
    parsed. *)
Lemma request_files_chunked (request : Request) :
  content_length request = None ->
  (body_length request >=? MAX_CONTENT_LENGTH) = false ->
  request_files request = Returns (files request).
Proof. unfold request_files. now intros -> ->. Qed.



(** ** The extension gate of [upload_file] *)

Lemma validate_stored_not_gate scan h fs file secure_name file_path fs' r :
  validate_stored scan h fs file secure_name file_path = (fs', Returns r) ->
  r <> (Failure TypeNotAllowed, 400).
Proof.
  unfold validate_stored. intros H ->.
  repeat case_match; inversion H.
Qed.

Lemma on_error_not_gate (e : exn) : on_error e <> (Failure TypeNotAllowed, 400).
Proof. destruct e; discriminate. Qed.

(** The response "File type not allowed" comes from VALIDATION #3 and
    from nowhere else. *)
Lemma gate_rejects_iff scan h fs request :
  (upload_pipeline scan h fs request).2 = (Failure TypeNotAllowed, 400)
  <-> exists file,
        request_files request = Returns (files request)
        /\ files request !! ("file" : str) = Some file
        /\ filename file <> []
        /\ lower (splitext (filename file)).2 ∉ ALLOWED_EXTENSIONS.
Proof.
  unfold upload_pipeline. split.
  - intros H.
    destruct (request_files request) as [fsd | e] eqn:Hreq.
    2:{ exfalso. simpl in H. now apply on_error_not_gate in H. }
    destruct (request_files_returns _ _ Hreq) as [-> | ->];
      [|rewrite lookup_empty in H; discriminate].
    destruct (files request !! ("file" : str)) as [file|] eqn:Hfile;
      [|discriminate].
    exists file. split; [reflexivity|]. split; [reflexivity|].
    destruct (bool_decide (filename file = [])) eqn:Hname; [discriminate|].
    apply bool_decide_eq_false in Hname. split; [assumption|].
    destruct (bool_decide (_ ∈ ALLOWED_EXTENSIONS)) eqn:Hgate.
    + exfalso. simpl in H.
      destruct (is_path_safe _ _ _); simpl in H; [|discriminate].
      destruct (save _ _ _ _) as [fs1|e]; simpl in H.
      * destruct (validate_stored _ _ _ _ _ _) as [fs2 [r|e]] eqn:Hv;
          simpl in H.
        -- now apply validate_stored_not_gate in Hv.
        -- now apply on_error_not_gate in H.
      * now apply on_error_not_gate in H.
    + now apply bool_decide_eq_false in Hgate.
  - intros (file & Hreq & Hfile & Hname & Hgate).
    rewrite Hreq, Hfile.
    rewrite (bool_decide_eq_false_2 _ Hname).
    rewrite (bool_decide_eq_false_2 _ Hgate). reflexivity.
Qed.

Lemma lower_nil (s : str) : lower s = [] <-> s = [].
Proof. destruct s; simpl; split; intros; congruence. Qed.

Lemma request_files_rename f request :
  request_files (rename f request) = Returns (files (rename f request))
  <-> request_files request = Returns (files request).
Proof.
  unfold request_files. rewrite body_length_rename, needed_length_rename.
  cbn [rename content_length files].
  destruct (content_length request) as [n|].
  - destruct (n >? MAX_CONTENT_LENGTH); [split; discriminate|].
    destruct (n <? needed_length request).
    + split; intros [= Hnone]; f_equal; symmetry in Hnone |- *.
      * now apply fmap_empty_inv in Hnone.
      * rewrite Hnone. apply fmap_empty.
    + destruct (body_length request <? n); [split; discriminate|tauto].
  - destruct (body_length request >=? MAX_CONTENT_LENGTH);
      [split; discriminate|tauto].
Qed.

(** ** Upper and lower case *)

Lemma lower_char_upper_of (c : ascii) : lower_char (upper_of c) = lower_char c.
Proof. destruct c as [[] [] [] [] [] [] [] []]; reflexivity. Qed.

(** Lower-casing undoes any upper-casing of letters. *)
Lemma case_variant_lower (x y : str) : case_variant x y -> lower x = lower y.
Proof.
  induction 1 as [|a b x y [-> | ->] _ IH]; simpl; [reflexivity| |];
    rewrite ?lower_char_upper_of; now f_equal.
Qed.

(** The allow-list is written in lower case. *)
Lemma allowed_extension_lower (ext : str) :
  ext ∈ ALLOWED_EXTENSIONS -> lower ext = ext.
Proof.
  unfold ALLOWED_EXTENSIONS. rewrite elem_of_list_to_set. intros Hin.
  repeat (apply elem_of_cons in Hin as [-> | Hin]; [reflexivity|]).
  now apply elem_of_nil in Hin.
Qed.

(** C10: the extension is lower-cased before it is compared with the
    allow-list, in [is_allowed_file_type] and at the gate of
    [upload_file] alike.  A file name and its lower-case form get the
    same verdict from the type policy and the same answer from the gate;
    and a name whose extension spells an allowed extension with any of
    its letters in upper case passes the gate and gets from the type
    policy the verdict of the lower-case extension. *)
Theorem extension_checks_ignore_case
    (h : Host) (fs : filesys) (request : Request)
    (name detected_mime : str) :
  is_allowed_file_type (lower name) detected_mime
  = is_allowed_file_type name detected_mime
  /\ (bool_decide (lower (splitext (lower name)).2 ∈ ALLOWED_EXTENSIONS)
      = bool_decide (lower (splitext name).2 ∈ ALLOWED_EXTENSIONS))
  /\ ((upload_file h fs (rename lower request)).2
        = (Failure TypeNotAllowed, 400)
      <-> (upload_file h fs request).2 = (Failure TypeNotAllowed, 400))
  /\ (forall ext : str,
        ext ∈ ALLOWED_EXTENSIONS ->
        case_variant (splitext name).2 ext ->
        lower (splitext name).2 = ext
        /\ bool_decide (lower (splitext name).2 ∈ ALLOWED_EXTENSIONS) = true
        /\ is_allowed_file_type name detected_mime
           = match ALLOWED_MIME_TYPES !! detected_mime with
             | None => (false, Some (reason_mime detected_mime))
             | Some exts =>
                 if bool_decide (ext ∈ exts) then (true, None)
                 else (false, Some (reason_mismatch ext detected_mime))
             end
        /\ (forall file,
              request_files request = Returns (files request) ->
              files request !! ("file" : str) = Some file ->
              filename file = name ->
              (upload_file h fs request).2 <> (Failure TypeNotAllowed, 400))).
Proof.
  split; [|split; [|split]].
  - unfold is_allowed_file_type. now rewrite lower_ext_lower.
  - now rewrite lower_ext_lower.
  - unfold upload_file. rewrite !gate_rejects_iff.
    split.
    + intros (file' & Hreq & Hfile & Hname & Hgate).
      apply request_files_rename in Hreq.
      unfold rename in Hfile. cbn [files] in Hfile.
      rewrite lookup_fmap in Hfile.
      destruct (files request !! ("file" : str)) as [file|] eqn:E;
        simpl in Hfile; [|discriminate].
      injection Hfile as <-. simpl in *.
      rewrite lower_ext_lower in Hgate. rewrite lower_nil in Hname.
      exists file. auto.
    + intros (file & Hreq & Hfile & Hname & Hgate).
      apply (request_files_rename lower) in Hreq.
      exists {| filename := lower (filename file); stream := stream file |}.
      split; [assumption|]. split.
      * unfold rename. cbn [files]. rewrite lookup_fmap, Hfile. reflexivity.
      * simpl. rewrite lower_ext_lower, lower_nil. auto.
  - intros ext Hext Hvariant.
    assert (Hlow : lower (splitext name).2 = ext).
    { rewrite (case_variant_lower _ _ Hvariant).
      now apply allowed_extension_lower. }
    split; [exact Hlow|]. split.
    { rewrite Hlow. now apply bool_decide_eq_true_2. }
    split.
    { unfold is_allowed_file_type. rewrite Hlow.
      rewrite (bool_decide_eq_true_2 _ Hext). cbn [negb].
      destruct (ALLOWED_MIME_TYPES !! detected_mime); [|reflexivity].
      now destruct (bool_decide _). }
    intros file Hreq Hfile <- Hrej.
    unfold upload_file in Hrej. apply gate_rejects_iff in Hrej.
    destruct Hrej as (file' & _ & Hfile' & _ & Hgate).
    rewrite Hfile in Hfile'. injection Hfile' as <-.
    apply Hgate. now rewrite Hlow.
Qed.

(** [PHOTO.JPG] with JPEG content is accepted by the type policy, as
    [photo.jpg] is. *)
Example photo_upper_case :
  is_allowed_file_type "PHOTO.JPG" "image/jpeg" = (true, None)
  /\ is_allowed_file_type "photo.jpg" "image/jpeg" = (true, None).
Proof. split; vm_compute; reflexivity. Qed.

(** ** IntegrityHasher *)

Lemma block_size_pos : (0 < block_size)%nat.
Proof. unfold block_size. lia. Qed.

Lemma take_nil_inv {A} (n : nat) (l : list A) :
  (0 < n)%nat -> take n l = [] -> l = [].
Proof. destruct n; [lia|]. destruct l; [reflexivity|discriminate]. Qed.

(** Feeding the file block by block feeds the file. *)
Lemma hash_chunks_whole (o : hash_obj) (f : list Byte.byte) :
  fed (hash_chunks o f) = fed o ++ f.
Proof.
  funelim (hash_chunks o f).
  - rewrite (take_nil_inv block_size f);
      [now rewrite app_nil_r | apply block_size_pos | assumption].
  - match goal with IH : fed (hash_chunks _ _) = _ |- _ => rewrite IH end.
    unfold hash_update. cbn [fed]. rewrite <- app_assoc, <- e.
    now rewrite take_drop.
Qed.

Lemma calculate_file_hash_returns h fs file_path content :
  fs !! file_path = Some content ->
  file_path ∉ open_fails h ->
  calculate_file_hash h fs file_path = Returns (digest_of h content).
Proof.
  intros Hfile Hopen. unfold calculate_file_hash, OS.open_rb.
  rewrite Hfile, (bool_decide_eq_false_2 _ Hopen).
  unfold hexdigest, digest_of. now rewrite hash_chunks_whole.
Qed.

Lemma calculate_file_hash_inv h fs file_path digest :
  calculate_file_hash h fs file_path = Returns digest ->
  exists content, fs !! file_path = Some content
                  /\ digest = digest_of h content.
Proof.
  unfold calculate_file_hash, OS.open_rb.
  destruct (fs !! file_path) as [content|]; [|discriminate].
  destruct (bool_decide _); [discriminate|].
  intros [= <-]. exists content. split; [reflexivity|].
  unfold hexdigest, digest_of. now rewrite hash_chunks_whole.
Qed.

(** A property of the numbers below 16 can be checked on each of them. *)
Lemma below_16 (P : N -> Prop) :
  Forall P (map N.of_nat (seq 0 16)) -> forall n, (n < 16)%N -> P n.
Proof.
  intros Hall n Hn. rewrite Forall_forall in Hall. apply Hall.
  apply list_elem_of_In, in_map_iff. exists (N.to_nat n).
  split; [lia|]. apply in_seq. lia.
Qed.

Lemma hex_digit_lower (n : N) : (n < 16)%N -> lower_hex_char (hex_digit n) = true.
Proof.
  revert n. apply (below_16 (fun n => lower_hex_char (hex_digit n) = true)).
  simpl. repeat constructor.
Qed.

Lemma hexlify_lower_hex (data : list Byte.byte) :
  forallb lower_hex_char (hexlify data) = true.
Proof.
  induction data as [|b data IH]; [reflexivity|].
  unfold hexlify in *. cbn [flat_map app forallb].
  rewrite IH.
  pose proof (Byte.to_N_bounded b) as Hb.
  rewrite !hex_digit_lower; [reflexivity| |].
  - apply N.mod_lt. lia.
  - apply N.Div0.div_lt_upper_bound. lia.
Qed.

Lemma hexlify_length (data : list Byte.byte) :
  length (hexlify data) = (2 * length data)%nat.
Proof.
  induction data as [|b data IH]; [reflexivity|].
  unfold hexlify in *. cbn [flat_map app length]. rewrite IH. lia.
Qed.

(** ** Cleanup *)

Lemma path_exists_lookup (fs : filesys) (path : str) :
  OS.path_exists fs path = false <-> fs !! path = None.
Proof.
  unfold OS.path_exists. rewrite bool_decide_eq_false.
  rewrite <- eq_None_not_Some. reflexivity.
Qed.

(** When [os.remove] does not raise, nothing is left at the path. *)
Lemma cleanup_file_removes (h : Host) (fs : filesys) (file_path : str) :
  file_path ∉ unlink_fails h ->
  OS.path_exists (cleanup_file h fs file_path) file_path = false.
Proof.
  intros Hrm. apply path_exists_lookup.
  unfold cleanup_file, OS.path_exists, OS.remove.
  destruct (fs !! file_path) as [content|] eqn:E.
  - rewrite bool_decide_eq_true_2 by eauto.
    rewrite (bool_decide_eq_false_2 _ Hrm). apply lookup_delete_eq.
  - rewrite bool_decide_eq_false_2; [assumption|].
    intros [? ?]; discriminate.
Qed.

(** When it raises, the error is logged and the file system is as it
    was. *)
Lemma cleanup_file_swallows (h : Host) (fs : filesys) (file_path : str) :
  file_path ∈ unlink_fails h -> cleanup_file h fs file_path = fs.
Proof.
  intros Hrm. unfold cleanup_file, OS.remove.
  destruct (OS.path_exists fs file_path); [|reflexivity].
  destruct (fs !! file_path); [|reflexivity].
  now rewrite (bool_decide_eq_true_2 _ Hrm).
Qed.

(** Other files are never touched. *)
Lemma cleanup_file_other (h : Host) (fs : filesys) (file_path other : str) :
  other <> file_path -> cleanup_file h fs file_path !! other = fs !! other.
Proof.
  intros Hne. unfold cleanup_file, OS.remove.
  destruct (OS.path_exists fs file_path); [|reflexivity].
  destruct (fs !! file_path); [|reflexivity].
  destruct (bool_decide _); [reflexivity|].
  now apply lookup_delete_ne.
Qed.

(** ** The stages after the write *)

Lemma upload_pipeline_stored scan h fs request file fs1 :
  stored h fs request file fs1 ->
  upload_pipeline scan h fs request
  = match validate_stored scan h fs1 file
            (generate_secure_filename h (filename file))
            (storage_path h file) with
    | (fs2, Returns r) => (fs2, r)
    | (fs2, Raises e) => (fs2, on_error e)
    end.
Proof.
  intros (Hreq & Hfile & Hname & Hgate & Hsafe & Hsave).
  unfold upload_pipeline. rewrite Hreq, Hfile.
  rewrite (bool_decide_eq_false_2 _ Hname).
  rewrite (bool_decide_eq_true_2 _ Hgate). cbn [negb].
  fold (storage_path h file). rewrite Hsafe. cbn [negb].
  now rewrite Hsave.
Qed.

Lemma stored_content h fs request file fs1 :
  stored h fs request file fs1 ->
  fs1 = <[storage_path h file := stream file]> fs
  /\ fs1 !! storage_path h file = Some (stream file).
Proof.
  intros (_ & _ & _ & _ & _ & Hsave). unfold save in Hsave.
  destruct (bool_decide _); [discriminate|].
  injection Hsave as <-. split; [reflexivity|]. apply lookup_insert_eq.
Qed.

Lemma is_allowed_true_no_reason (name detected_mime : str) error_msg :
  is_allowed_file_type name detected_mime = (true, error_msg) ->
  error_msg = None.
Proof.
  unfold is_allowed_file_type.
  destruct (bool_decide _); cbn [negb]; [|discriminate].
  destruct (ALLOWED_MIME_TYPES !! detected_mime); [|discriminate].
  destruct (bool_decide _); cbn [negb]; [|discriminate].
  now intros [= <-].
Qed.

(** The inner [try] has two kinds of exit: the success response, with
    the file system as it found it, or a rejection (a 400 response or an
    exception passed on), with [cleanup_file] run on the stored path. *)
Lemma validate_stored_exits scan h fs file secure_name file_path :
  let result := validate_stored scan h fs file secure_name file_path in
  (exists size mime digest,
      result = (fs, Returns (Success ("/api/files/" ++ secure_name)
                                     (filename file) size mime digest
                                     (clock h 1), 200))
      /\ validate_file_size h fs file_path MAX_FILE_SIZE = (true, size)
      /\ get_file_magic_type h fs file_path = Some mime
      /\ is_allowed_file_type (filename file) mime = (true, None)
      /\ calculate_file_hash h fs file_path = Returns digest)
  \/ (result.1 = cleanup_file h fs file_path
      /\ ((exists error, result.2 = Returns (Failure error, 400))
          \/ exists e, result.2 = Raises e)).
Proof.
  unfold validate_stored.
  destruct (validate_file_size h fs file_path MAX_FILE_SIZE)
    as [size_valid file_size] eqn:Hsize.
  destruct size_valid; cbn [negb]; [|right; split; eauto].
  destruct (get_file_magic_type h fs file_path) as [[|c mime]|] eqn:Hmagic;
    [right; split; eauto | | right; split; eauto].
  destruct (is_allowed_file_type (filename file) (c :: mime))
    as [[] error_msg] eqn:Hpolicy; [|right; split; eauto].
  destruct (scan fs file_path) as [verdict|e]; [|right; split; eauto].
  destruct (clean verdict); cbn [negb]; [|right; split; eauto].
  destruct (calculate_file_hash h fs file_path) as [digest|e] eqn:Hhash;
    [|right; split; eauto].
  left. exists file_size, (c :: mime), digest.
  repeat split; try reflexivity.
  now rewrite (is_allowed_true_no_reason _ _ _ Hpolicy) in Hpolicy.
Qed.

Lemma on_error_status (e : exn) : (on_error e).2 <> 200.
Proof. destruct e; discriminate. Qed.

(** After the write, a response other than 200 comes with the file
    system that [cleanup_file] leaves. *)
Lemma rejected_after_write scan h fs request file fs1 :
  stored h fs request file fs1 ->
  (upload_pipeline scan h fs request).2.2 <> 200 ->
  (upload_pipeline scan h fs request).1
  = cleanup_file h fs1 (storage_path h file).
Proof.
  intros Hstored Hstatus.
  rewrite (upload_pipeline_stored _ _ _ _ _ _ Hstored) in Hstatus |- *.
  pose proof (validate_stored_exits scan h fs1 file
                (generate_secure_filename h (filename file))
                (storage_path h file)) as Hexits.
  cbv zeta in Hexits.
  destruct Hexits as [(size & mime & digest & Hok & _) | [Hfs Hout]].
  - rewrite Hok in Hstatus. now contradict Hstatus.
  - destruct (validate_stored _ _ _ _ _ _) as [fs2 [r|e]]; exact Hfs.
Qed.

(** The size check, on a stored file. *)
Lemma validate_file_size_stored h fs request file fs1 :
  stored h fs request file fs1 ->
  validate_file_size h fs1 (storage_path h file) MAX_FILE_SIZE
  = if bool_decide (storage_path h file ∈ stat_fails h) then (false, 0)
    else (Z.of_nat (length (stream file)) <=? MAX_FILE_SIZE,
          Z.of_nat (length (stream file))).
Proof.
  intros Hstored. apply stored_content in Hstored as [_ Hfile].
  unfold validate_file_size, OS.getsize. rewrite Hfile.
  now destruct (bool_decide _).
Qed.




(** C2, as the code has it: a rejection after the write (size, sniffing,
    type policy, scan, or an exception on the way) leaves the file system
    that [cleanup_file] produced from the stored state, and an existence
    check on the storage path answers false whenever [os.remove] did not
    raise there; when it raises, the stored file system is left as it
    was. *)
Theorem rejection_runs_cleanup
    (scan : filesys -> str -> outcome ScanVerdict) (h : Host) (fs : filesys)
    (request : Request) (file : FileStorage) (fs1 : filesys) :
  stored h fs request file fs1 ->
  (upload_pipeline scan h fs request).2.2 <> 200 ->
  (upload_pipeline scan h fs request).1
  = cleanup_file h fs1 (storage_path h file)
  /\ (storage_path h file ∉ unlink_fails h ->
      OS.path_exists (upload_pipeline scan h fs request).1
                     (storage_path h file) = false)
  /\ (storage_path h file ∈ unlink_fails h ->
      (upload_pipeline scan h fs request).1 = fs1).
Proof.
  intros Hstored Hstatus.
  pose proof (rejected_after_write _ _ _ _ _ _ Hstored Hstatus) as Hfs.
  split; [exact Hfs|]. split.
  - intros Hrm. rewrite Hfs. now apply cleanup_file_removes.
  - intros Hrm. rewrite Hfs. now apply cleanup_file_swallows.
Qed.



(** ** TypeSniffer *)

(** [None] comes from a failed detection and from nothing else. *)
Lemma get_file_magic_type_none (h : Host) (fs : filesys) (file_path : str) :
  get_file_magic_type h fs file_path = None
  <-> fs !! file_path = None
      \/ exists content e, fs !! file_path = Some content
                           /\ libmagic h file_path content = Raises e.
Proof.
  unfold get_file_magic_type.
  destruct (fs !! file_path) as [content|]; [|split; auto].
  destruct (libmagic h file_path content) as [mime|e] eqn:E.
  - split; [discriminate|].
    intros [? | (c & e & [= <-] & He)]; congruence.
  - split; [|reflexivity]. intros _. right. eauto.
Qed.

(** A detected type is the detector's answer, never a stand-in. *)
Lemma get_file_magic_type_some (h : Host) (fs : filesys) (file_path mime : str) :
  get_file_magic_type h fs file_path = Some mime
  <-> exists content, fs !! file_path = Some content
                      /\ libmagic h file_path content = Returns mime.
Proof.
  unfold get_file_magic_type.
  destruct (fs !! file_path) as [content|].
  - destruct (libmagic h file_path content) as [m|e] eqn:E.
    + split; [intros [= <-]; eauto|].
      intros (c & [= <-] & Hc). congruence.
    + split; [discriminate|]. intros (c & [= <-] & Hc). congruence.
  - split; [discriminate|]. intros (c & Hc & _). discriminate.
Qed.

Lemma sniff_failure_exit scan h fs request file fs1 e :
  stored h fs request file fs1 ->
  (validate_file_size h fs1 (storage_path h file) MAX_FILE_SIZE).1 = true ->
  libmagic h (storage_path h file) (stream file) = Raises e ->
  get_file_magic_type h fs1 (storage_path h file) = None
  /\ upload_pipeline scan h fs request
     = (cleanup_file h fs1 (storage_path h file),
        (Failure (Text "Could not verify file type"), 400)).
Proof.
  intros Hstored Hsize Hmagic.
  assert (Hnone : get_file_magic_type h fs1 (storage_path h file) = None).
  { apply get_file_magic_type_none. right.
    apply stored_content in Hstored as [_ Hfile]. eauto. }
  split; [exact Hnone|].
  rewrite (upload_pipeline_stored _ _ _ _ _ _ Hstored).
  unfold validate_stored.
  destruct (validate_file_size _ _ _ _) as [size_valid file_size].
  cbn [fst] in Hsize. subst size_valid. cbn [negb].
  now rewrite Hnone.
Qed.

(** A type the allow-list does not know, such as the detector's answer
    for unrecognised content, is rejected by the type policy with the
    MIME reason: past the gate the extension check cannot be the one that
    fails. *)
Lemma unlisted_type_exit scan h fs request file fs1 c mime :
  stored h fs request file fs1 ->
  (validate_file_size h fs1 (storage_path h file) MAX_FILE_SIZE).1 = true ->
  get_file_magic_type h fs1 (storage_path h file) = Some (c :: mime) ->
  ~ mime_listed (c :: mime) ->
  upload_pipeline scan h fs request
  = (cleanup_file h fs1 (storage_path h file),
     (Failure (Reason (Some (reason_mime (c :: mime)))), 400)).
Proof.
  intros Hstored Hsize Hmagic Hmime.
  rewrite (upload_pipeline_stored _ _ _ _ _ _ Hstored).
  destruct Hstored as (_ & _ & _ & Hgate & _).
  unfold validate_stored.
  destruct (validate_file_size _ _ _ _) as [size_valid file_size].
  cbn [fst] in Hsize. subst size_valid. cbn [negb]. rewrite Hmagic.
  unfold is_allowed_file_type.
  rewrite (bool_decide_eq_true_2 _ Hgate). cbn [negb].
  destruct (ALLOWED_MIME_TYPES !! (c :: mime)) eqn:E; [|reflexivity].
  exfalso. apply Hmime. unfold mime_listed. rewrite E. eauto.
Qed.

Lemma on_error_not_sniff (e : exn) :
  on_error e <> (Failure (Text "Could not verify file type"), 400).
Proof. destruct e; discriminate. Qed.

(** Once the detector has answered with a type, the answer of the
    upload is not "Could not verify file type". *)
Lemma typed_not_sniff_failure scan h fs request file fs1 c mime :
  stored h fs request file fs1 ->
  get_file_magic_type h fs1 (storage_path h file) = Some (c :: mime) ->
  (upload_pipeline scan h fs request).2
  <> (Failure (Text "Could not verify file type"), 400).
Proof.
  intros Hstored Hmagic.
  rewrite (upload_pipeline_stored _ _ _ _ _ _ Hstored).
  destruct (validate_stored _ _ _ _ _ _) as [fs2 [r|e]] eqn:Hv; cbn [snd];
    [|apply on_error_not_sniff].
  unfold validate_stored in Hv. rewrite Hmagic in Hv. intros ->.
  repeat case_match; inversion Hv.
Qed.

(** The detector's answer for the stored content is what the sniffer
    returns. *)
Lemma get_file_magic_type_stored h fs request file fs1 :
  stored h fs request file fs1 ->
  get_file_magic_type h fs1 (storage_path h file)
  = match libmagic h (storage_path h file) (stream file) with
    | Returns detected_mime => Some detected_mime
    | Raises _ => None
    end.
Proof.
  intros Hstored. apply stored_content in Hstored as [_ Hfile].
  unfold get_file_magic_type. now rewrite Hfile.
Qed.

(** C8, as the code has it: the sniffer answers [None] exactly when the
    detection raises, and then the upload is rejected with "Could not
    verify file type" after [cleanup_file]; a type the detector returns,
    its fallback for unrecognised content included, is passed on as it
    is, and the type policy decides: a type that the allow-list does not
    know is rejected with the MIME reason.  "Could not verify file type"
    is the answer only when the detection raised or returned the empty
    string. *)
Theorem sniff_failure_rejected
    (scan : filesys -> str -> outcome ScanVerdict) (h : Host) (fs : filesys)
    (request : Request) (file : FileStorage) (fs1 : filesys) :
  stored h fs request file fs1 ->
  (validate_file_size h fs1 (storage_path h file) MAX_FILE_SIZE).1 = true ->
  (forall e : exn,
      libmagic h (storage_path h file) (stream file) = Raises e ->
      get_file_magic_type h fs1 (storage_path h file) = None
      /\ upload_pipeline scan h fs request
         = (cleanup_file h fs1 (storage_path h file),
            (Failure (Text "Could not verify file type"), 400))
      /\ (storage_path h file ∉ unlink_fails h ->
          OS.path_exists (upload_pipeline scan h fs request).1
                         (storage_path h file) = false))
  /\ (forall detected_mime : str,
        libmagic h (storage_path h file) (stream file) = Returns detected_mime ->
        get_file_magic_type h fs1 (storage_path h file) = Some detected_mime)
  /\ (forall (c : ascii) (mime : str),
        libmagic h (storage_path h file) (stream file) = Returns (c :: mime) ->
        ~ mime_listed (c :: mime) ->
        upload_pipeline scan h fs request
        = (cleanup_file h fs1 (storage_path h file),
           (Failure (Reason (Some (reason_mime (c :: mime)))), 400)))
  /\ ((upload_pipeline scan h fs request).2
        = (Failure (Text "Could not verify file type"), 400)
      <-> (exists e, libmagic h (storage_path h file) (stream file) = Raises e)
          \/ libmagic h (storage_path h file) (stream file) = Returns [])
  /\ (forall (fs' : filesys) (file_path mime : str),
        get_file_magic_type h fs' file_path = Some mime ->
        exists content, fs' !! file_path = Some content
                        /\ libmagic h file_path content = Returns mime).
Proof.
  intros Hstored Hsize.
  pose proof (get_file_magic_type_stored _ _ _ _ _ Hstored) as Hget.
  split; [|split; [|split; [|split]]].
  - intros e Hmagic.
    destruct (sniff_failure_exit scan _ _ _ _ _ _ Hstored Hsize Hmagic)
      as [Hnone Hup].
    split; [exact Hnone|]. split; [exact Hup|].
    intros Hrm. rewrite Hup. now apply cleanup_file_removes.
  - intros detected_mime Hmagic. now rewrite Hget, Hmagic.
  - intros c mime Hmagic Hmime.
    apply (unlisted_type_exit scan _ _ _ _ _ _ _ Hstored Hsize);
      [|exact Hmime].
    now rewrite Hget, Hmagic.
  - destruct (libmagic h (storage_path h file) (stream file))
      as [[|c mime]|e] eqn:Hmagic.
    + split; [auto|]. intros _.
      rewrite (upload_pipeline_stored _ _ _ _ _ _ Hstored).
      unfold validate_stored.
      destruct (validate_file_size _ _ _ _) as [size_valid file_size].
      cbn [fst] in Hsize. subst size_valid. cbn [negb].
      now rewrite Hget.
    + split.
      * intros Hup. exfalso.
        now apply (typed_not_sniff_failure scan _ _ _ _ _ _ _ Hstored Hget).
      * intros [[e He] | He]; discriminate.
    + split; [eauto|]. intros _.
      now destruct (sniff_failure_exit scan _ _ _ _ _ _ Hstored Hsize Hmagic)
        as [_ ->].
  - intros fs' file_path mime. apply get_file_magic_type_some.
Qed.

(** ** SizeGuard *)

Lemma getsize_raises_exit scan h fs request file fs1 e :
  stored h fs request file fs1 ->
  OS.getsize h fs1 (storage_path h file) = Raises e ->
  upload_pipeline scan h fs request
  = (cleanup_file h fs1 (storage_path h file),
     (Failure (SizeExceeds 0), 400)).
Proof.
  intros Hstored Hstat.
  rewrite (upload_pipeline_stored _ _ _ _ _ _ Hstored).
  unfold validate_stored, validate_file_size. now rewrite Hstat.
Qed.

(** C9: a file whose size on disk is exactly the maximum is within the
    limit; when the size cannot be read, [validate_file_size] answers
    [(False, 0)] and the upload is rejected, not accepted. *)
Theorem validate_file_size_boundary :
  (forall (h : Host) (fs : filesys) (file_path : str) (content : list Byte.byte)
          (max_size : Z),
      fs !! file_path = Some content ->
      file_path ∉ stat_fails h ->
      Z.of_nat (length content) = max_size ->
      validate_file_size h fs file_path max_size = (true, max_size))
  /\ (forall (h : Host) (fs : filesys) (file_path : str) (max_size : Z) (e : exn),
        OS.getsize h fs file_path = Raises e ->
        validate_file_size h fs file_path max_size = (false, 0))
  /\ (forall (scan : filesys -> str -> outcome ScanVerdict) (h : Host)
             (fs : filesys) (request : Request) (file : FileStorage)
             (fs1 : filesys) (e : exn),
        stored h fs request file fs1 ->
        OS.getsize h fs1 (storage_path h file) = Raises e ->
        (upload_pipeline scan h fs request).2
        = (Failure (SizeExceeds 0), 400)).
Proof.
  split; [|split].
  - intros h fs file_path content max_size Hfile Hstat Hlen.
    unfold validate_file_size, OS.getsize.
    rewrite Hfile, (bool_decide_eq_false_2 _ Hstat), Hlen.
    now rewrite Z.leb_refl.
  - intros h fs file_path max_size e Hstat.
    unfold validate_file_size. now rewrite Hstat.
  - intros scan h fs request file fs1 e Hstored Hstat.
    now rewrite (getsize_raises_exit _ _ _ _ _ _ _ Hstored Hstat).
Qed.

(** ** Accepted uploads *)

Lemma accepted_exit scan h fs request file fs1 fs2 url name size mime digest t :
  stored h fs request file fs1 ->
  upload_pipeline scan h fs request
  = (fs2, (Success url name size mime digest t, 200)) ->
  fs2 = fs1
  /\ url = "/api/files/" ++ generate_secure_filename h (filename file)
  /\ name = filename file
  /\ validate_file_size h fs1 (storage_path h file) MAX_FILE_SIZE = (true, size)
  /\ get_file_magic_type h fs1 (storage_path h file) = Some mime
  /\ is_allowed_file_type (filename file) mime = (true, None)
  /\ calculate_file_hash h fs1 (storage_path h file) = Returns digest.
Proof.
  intros Hstored Hup.
  rewrite (upload_pipeline_stored _ _ _ _ _ _ Hstored) in Hup.
  pose proof (validate_stored_exits scan h fs1 file
                (generate_secure_filename h (filename file))
                (storage_path h file)) as Hexits.
  cbv zeta in Hexits.
  destruct Hexits as [(size' & mime' & digest' & Hok & Hs & Hm & Hp & Hd)
                     | [Hfs [[error Hout] | [e Hout]]]].
  - rewrite Hok in Hup. injection Hup as <- <- <- <- <- <- <-.
    repeat split; assumption.
  - exfalso. destruct (validate_stored _ _ _ _ _ _) as [fs' out].
    cbn [snd] in Hout. subst out. discriminate.
  - exfalso. destruct (validate_stored _ _ _ _ _ _) as [fs' out].
    cbn [snd] in Hout. subst out. destruct e; discriminate.
Qed.

(** An upload that passes every stage is answered with status 200 and
    stays where it was stored. *)
Lemma accepted_when scan h fs request file fs1 size c mime verdict digest :
  stored h fs request file fs1 ->
  validate_file_size h fs1 (storage_path h file) MAX_FILE_SIZE = (true, size) ->
  get_file_magic_type h fs1 (storage_path h file) = Some (c :: mime) ->
  is_allowed_file_type (filename file) (c :: mime) = (true, None) ->
  scan fs1 (storage_path h file) = Returns verdict ->
  clean verdict = true ->
  calculate_file_hash h fs1 (storage_path h file) = Returns digest ->
  upload_pipeline scan h fs request
  = (fs1, (Success ("/api/files/" ++ generate_secure_filename h (filename file))
                   (filename file) size (c :: mime) digest (clock h 1), 200)).
Proof.
  intros Hstored Hsize Hmagic Hpolicy Hscan Hclean Hhash.
  rewrite (upload_pipeline_stored _ _ _ _ _ _ Hstored).
  unfold validate_stored.
  rewrite Hsize. cbn [negb]. rewrite Hmagic, Hpolicy, Hscan, Hclean.
  cbn [negb]. now rewrite Hhash.
Qed.

(** C7: the hash of an acceptance response is the lower-case hexadecimal
    digest of the whole stored content, which the block loop feeds in
    full; computing the hash again from the stored file gives the same
    string. *)
Theorem accepted_hash_roundtrip
    (scan : filesys -> str -> outcome ScanVerdict) (h : Host)
    (fs fs1 fs2 : filesys) (request : Request) (file : FileStorage)
    (url name mime digest : str) (size : Z) (t : datetime) :
  stored h fs request file fs1 ->
  upload_pipeline scan h fs request
  = (fs2, (Success url name size mime digest t, 200)) ->
  fs2 !! storage_path h file = Some (stream file)
  /\ digest = digest_of h (stream file)
  /\ calculate_file_hash h fs2 (storage_path h file) = Returns digest
  /\ forallb lower_hex_char digest = true
  /\ length digest = (2 * length (sha256 h (stream file)))%nat
  /\ (forall (o : hash_obj) (f : list Byte.byte),
        fed (hash_chunks o f) = fed o ++ f).
Proof.
  intros Hstored Hup.
  destruct (accepted_exit _ _ _ _ _ _ _ _ _ _ _ _ _ Hstored Hup)
    as (-> & _ & _ & _ & _ & _ & Hhash).
  destruct (stored_content _ _ _ _ _ Hstored) as [_ Hfile].
  destruct (calculate_file_hash_inv _ _ _ _ Hhash) as (content & Hc & ->).
  assert (content = stream file) as -> by congruence.
  split; [exact Hfile|]. split; [reflexivity|]. split; [exact Hhash|].
  split; [apply hexlify_lower_hex|]. split; [apply hexlify_length|].
  apply hash_chunks_whole.
Qed.

(** ** PathGuard *)

Lemma startswith_prefix (s p : str) :
  startswith s p = true <-> exists rest, s = p ++ rest.
Proof.
  revert s. induction p as [|c p IH]; intros [|x s]; simpl.
  - split; [intros _; now exists [] | reflexivity].
  - split; [intros _; now exists (x :: s) | reflexivity].
  - split; [discriminate|]. intros [rest H]. discriminate.
  - rewrite andb_true_iff, char_eqb_eq, IH. split.
    + intros [-> [rest ->]]. eauto.
    + intros [rest [= -> ->]]. eauto.
Qed.

Lemma startswith_refl (s : str) : startswith s s = true.
Proof. apply startswith_prefix. exists []. now rewrite app_nil_r. Qed.

Lemma startswith_app (s p q : str) :
  startswith s (p ++ q) = true -> startswith s p = true.
Proof.
  rewrite !startswith_prefix. intros [rest ->].
  exists (q ++ rest). now rewrite app_assoc.
Qed.

(** Being the root or below it implies having the root as a string
    prefix; the converse is what [is_path_safe] lacks. *)
Lemma descendant_has_prefix (root cand : str) :
  is_root_or_descendant root cand = true -> startswith cand root = true.
Proof.
  unfold is_root_or_descendant. rewrite orb_true_iff.
  intros [Heq | Hpre].
  - apply bool_decide_eq_true in Heq. subst. apply startswith_refl.
  - destruct (last root) as [c|]; [|now apply startswith_app in Hpre].
    destruct (decide (c = "/"%char)) as [-> | Hc]; [exact Hpre|].
    assert (startswith cand (root ++ "/") = true) as Hpre'.
    { revert Hpre. destruct c as [[] [] [] [] [] [] [] []];
        try exact (fun H => H); now destruct Hc. }
    now apply startswith_app in Hpre'.
Qed.

Lemma is_path_safe_complete (h : Host) (file_path base_directory : str) :
  spec_path_guard h file_path base_directory = true ->
  is_path_safe h file_path base_directory = true.
Proof.
  unfold spec_path_guard, is_path_safe.
  destruct (OS.abspath h base_directory) as [abs_base|]; [|discriminate].
  destruct (OS.abspath h file_path) as [abs_file|]; [|discriminate].
  apply descendant_has_prefix.
Qed.

Lemma is_path_safe_fails_closed (h : Host) (file_path base_directory : str) e :
  OS.abspath h base_directory = Raises e \/ OS.abspath h file_path = Raises e ->
  is_path_safe h file_path base_directory = false.
Proof.
  unfold is_path_safe. intros [-> | ->]; [reflexivity|].
  now destruct (OS.abspath h base_directory).
Qed.

(** ** Character classes *)

Lemma all_chars_forallb (P : ascii -> bool) (s : str) :
  all_chars P s <-> forallb P s = true.
Proof.
  unfold all_chars. induction s as [|c s IH]; simpl.
  - split; auto.
  - rewrite Forall_cons, andb_true_iff, IH. reflexivity.
Qed.

Lemma all_chars_app (P : ascii -> bool) (s t : str) :
  all_chars P (s ++ t) <-> all_chars P s /\ all_chars P t.
Proof. apply Forall_app. Qed.

Lemma all_chars_impl (P Q : ascii -> bool) (s : str) :
  (forall c, P c = true -> Q c = true) -> all_chars P s -> all_chars Q s.
Proof. intros HPQ Hs. eapply Forall_impl; [exact Hs|]. exact HPQ. Qed.

Lemma all_chars_not_in (P : ascii -> bool) (s : str) (c : ascii) :
  P c = false -> all_chars P s -> c ∉ s.
Proof.
  intros Hc Hs Hin. unfold all_chars in Hs. rewrite Forall_forall in Hs.
  specialize (Hs c Hin). congruence.
Qed.

Lemma plain_is_safe (c : ascii) : plain_char c = true -> safe_char c = true.
Proof. unfold plain_char. now intros [H _]%andb_true_iff. Qed.

Lemma safe_no_slash (s : str) : all_chars safe_char s -> "/"%char ∉ s.
Proof. now apply all_chars_not_in. Qed.

Lemma plain_no_dot (s : str) : all_chars plain_char s -> "."%char ∉ s.
Proof. now apply all_chars_not_in. Qed.

Lemma safe_without_dot_plain (s : str) :
  all_chars safe_char s -> "."%char ∉ s -> all_chars plain_char s.
Proof.
  unfold all_chars. rewrite !Forall_forall. intros Hs Hdot c Hin.
  unfold plain_char. rewrite (Hs c Hin). simpl.
  apply negb_true_iff. unfold char_eqb. apply bool_decide_eq_false.
  intros ->. contradiction.
Qed.

(** Decimal digits and hexadecimal digits are plain. *)
Lemma digit_plain (n : nat) : plain_char (digit n) = true.
Proof.
  unfold digit.
  assert (n mod 10 < 10)%nat as Hlt by (apply Nat.mod_upper_bound; lia).
  destruct (n mod 10)%nat as [|[|[|[|[|[|[|[|[|[|k]]]]]]]]]];
    try reflexivity; lia.
Qed.

Lemma hex_digit_plain (n : N) : (n < 16)%N -> plain_char (hex_digit n) = true.
Proof.
  revert n. apply (below_16 (fun n => plain_char (hex_digit n) = true)).
  simpl. repeat constructor.
Qed.

Lemma hexlify_plain (data : list Byte.byte) : all_chars plain_char (hexlify data).
Proof.
  unfold all_chars.
  induction data as [|b data IH]; [constructor|].
  unfold hexlify in *. cbn [flat_map app].
  pose proof (Byte.to_N_bounded b) as Hb.
  constructor; [|constructor; [|exact IH]]; apply hex_digit_plain.
  - apply N.Div0.div_lt_upper_bound. lia.
  - apply N.mod_lt. lia.
Qed.

Lemma strftime_plain (t : datetime) : all_chars plain_char (strftime t).
Proof.
  unfold strftime, pad2, pad4, all_chars.
  repeat (apply Forall_app; split);
    repeat (constructor; try apply digit_plain; try reflexivity).
Qed.

Lemma strftime_length (t : datetime) : length (strftime t) = 15%nat.
Proof. reflexivity. Qed.

(** ** Stripping *)

Lemma lstrip_suffix (chars s : str) : exists pre, s = pre ++ lstrip chars s.
Proof.
  induction s as [|c s [pre IH]]; simpl.
  - now exists [].
  - destruct (bool_decide (c ∈ chars)).
    + exists (c :: pre). simpl. now f_equal.
    + now exists [].
Qed.

Lemma lstrip_head (chars s : str) (c : ascii) :
  head (lstrip chars s) = Some c -> c ∉ chars.
Proof.
  induction s as [|x s IH]; simpl; [discriminate|].
  destruct (bool_decide (x ∈ chars)) eqn:E; [exact IH|].
  simpl. intros [= <-]. now apply bool_decide_eq_false in E.
Qed.

Lemma lstrip_keeps_last (chars l : str) (c : ascii) :
  c ∉ chars -> exists l', lstrip chars (l ++ [c]) = l' ++ [c].
Proof.
  intros Hc. induction l as [|x l [l' IH]]; simpl.
  - rewrite (bool_decide_eq_false_2 _ Hc). now exists [].
  - destruct (bool_decide (x ∈ chars)).
    + eauto.
    + now exists (x :: l).
Qed.

Lemma rstrip_prefix (chars s : str) : exists post, s = rstrip chars s ++ post.
Proof.
  unfold rstrip. destruct (lstrip_suffix chars (rev s)) as [pre Hpre].
  exists (rev pre).
  rewrite <- rev_app_distr, <- Hpre. now rewrite rev_involutive.
Qed.

Lemma rstrip_head (chars s : str) (c : ascii) :
  c ∉ chars -> head s = Some c -> head (rstrip chars s) = Some c.
Proof.
  intros Hc Hhead. destruct s as [|x s]; [discriminate|].
  injection Hhead as ->. unfold rstrip. simpl.
  destruct (lstrip_keeps_last chars (rev s) c Hc) as [l' ->].
  rewrite rev_app_distr. reflexivity.
Qed.

Lemma strip_part (chars s : str) :
  exists pre post, s = pre ++ strip chars s ++ post.
Proof.
  unfold strip.
  destruct (lstrip_suffix chars s) as [pre Hpre].
  destruct (rstrip_prefix chars (lstrip chars s)) as [post Hpost].
  exists pre, post. now rewrite <- Hpost.
Qed.

Lemma strip_head (chars s : str) (c : ascii) :
  head (strip chars s) = Some c -> c ∉ chars.
Proof.
  unfold strip. intros Hhead.
  destruct (lstrip chars s) as [|x r] eqn:E; [discriminate Hhead|].
  assert (x ∉ chars) as Hx by (apply (lstrip_head chars s); now rewrite E).
  rewrite (rstrip_head chars (x :: r) x Hx eq_refl) in Hhead.
  now injection Hhead as <-.
Qed.

(** ** The sanitised name *)

Lemma filter_all_chars (P : ascii -> bool) (s : str) :
  all_chars P (List.filter P s).
Proof.
  unfold all_chars. induction s as [|c s IH]; simpl; [constructor|].
  destruct (P c) eqn:E; [constructor|]; assumption.
Qed.

Lemma secure_filename_safe (name : str) :
  all_chars safe_char (secure_filename name).
Proof.
  unfold secure_filename.
  match goal with |- all_chars _ (strip _ ?s) =>
    destruct (strip_part "._" s) as (pre & post & Hs);
    pose proof (filter_all_chars safe_char
                  (PyStr.join "_" (split_ws
                     (replace_char "/" " " (ascii_ignore name))))) as Hall
  end.
  rewrite Hs in Hall.
  apply all_chars_app in Hall as [_ Hall].
  now apply all_chars_app in Hall as [Hall _].
Qed.

Lemma secure_filename_head (name : str) :
  head (secure_filename name) <> Some "."%char.
Proof.
  intros Hhead. apply strip_head in Hhead. apply Hhead.
  apply list_elem_of_here.
Qed.

(** ** [rfind] and [splitext] *)

Lemma rfind_from_spec (s : str) (c : ascii) (i last : Z) :
  ((c ∉ s) /\ rfind_from s c i last = last)
  \/ exists a b, s = a ++ c :: b /\ (c ∉ b)
                 /\ rfind_from s c i last = i + Z.of_nat (length a).
Proof.
  revert i last. induction s as [|x s IH]; intros i last; simpl.
  - left. split; [apply not_elem_of_nil | reflexivity].
  - destruct (IH (i + 1) (if char_eqb x c then i else last))
      as [[Hnot Hres] | (a & b & -> & Hb & Hres)].
    + destruct (char_eqb x c) eqn:E.
      * apply char_eqb_eq in E as ->. right. exists [], s.
        repeat split; [assumption|]. rewrite Hres. simpl. lia.
      * left. split; [|exact Hres].
        apply not_elem_of_cons. split; [|assumption].
        intros ->. unfold char_eqb in E.
        now rewrite bool_decide_eq_true_2 in E.
    + right. exists (x :: a), b. repeat split; [assumption|].
      rewrite Hres. simpl. lia.
Qed.

Lemma rfind_absent (s : str) (c : ascii) : c ∉ s -> rfind s c = -1.
Proof.
  intros Hc. unfold rfind.
  destruct (rfind_from_spec s c 0 (-1)) as [[_ H] | (a & b & -> & _ & _)];
    [exact H|].
  exfalso. apply Hc. apply elem_of_app. right. apply list_elem_of_here.
Qed.

Lemma elem_of_app_cons_last_unique (a b a' b' : str) (c : ascii) :
  c ∉ b -> c ∉ b' -> a ++ c :: b = a' ++ c :: b' -> a = a' /\ b = b'.
Proof.
  revert a'. induction a as [|x a IH]; intros [|x' a'] Hb Hb' Heq; simpl in *.
  - injection Heq as ->. auto.
  - injection Heq as <- ->. exfalso. apply Hb.
    apply elem_of_app. right. apply list_elem_of_here.
  - injection Heq as -> <-. exfalso. apply Hb'.
    apply elem_of_app. right. apply list_elem_of_here.
  - injection Heq as -> Heq. destruct (IH a' Hb Hb' Heq) as [-> ->]. auto.
Qed.

Lemma rfind_last (a b : str) (c : ascii) :
  c ∉ b -> rfind (a ++ c :: b) c = Z.of_nat (length a).
Proof.
  intros Hb. unfold rfind.
  destruct (rfind_from_spec (a ++ c :: b) c 0 (-1))
    as [[Hnot _] | (a' & b' & Heq & Hb' & Hres)].
  - exfalso. apply Hnot. apply elem_of_app. right. apply list_elem_of_here.
  - destruct (elem_of_app_cons_last_unique _ _ _ _ _ Hb Hb' Heq) as [-> ->].
    rewrite Hres. lia.
Qed.

(** The two halves of [splitext] make up the path. *)
Lemma splitext_app (p : str) : (splitext p).1 ++ (splitext p).2 = p.
Proof.
  unfold splitext.
  destruct (_ >? _); [|apply app_nil_r].
  destruct (existsb _ _); [|apply app_nil_r].
  simpl. unfold upto, from. apply take_drop.
Qed.

(** A name with no dot has no extension. *)
Lemma splitext_no_dot (p : str) : "."%char ∉ p -> splitext p = (p, []).
Proof.
  intros Hdot. unfold splitext. rewrite (rfind_absent p "." Hdot).
  destruct (rfind_from_spec p "/" 0 (-1)) as [[_ H] | (a & b & _ & _ & H)];
    unfold rfind; rewrite H.
  - reflexivity.
  - assert ((-1 >? 0 + Z.of_nat (length a)) = false) as ->
      by (rewrite Z.gtb_ltb; apply Z.ltb_ge; lia).
    reflexivity.
Qed.

(** In a name without separator, the part after the last dot is the
    extension, as soon as something other than dots comes before. *)
Lemma splitext_last_dot (a b : str) :
  "/"%char ∉ a ++ "."%char :: b -> "."%char ∉ b ->
  existsb (fun c => negb (char_eqb c ".")) a = true ->
  splitext (a ++ "."%char :: b) = (a, "."%char :: b).
Proof.
  intros Hsep Hdot Hbase. unfold splitext.
  rewrite (rfind_absent _ "/" Hsep), (rfind_last a b "." Hdot).
  assert ((Z.of_nat (length a) >? -1) = true) as ->
    by (rewrite Z.gtb_ltb; apply Z.ltb_lt; lia).
  unfold slice, upto, from.
  replace (Z.to_nat (-1 + 1)) with 0%nat by lia.
  rewrite Nat2Z.id, Nat.sub_0_r, drop_0.
  rewrite take_app_length, drop_app_length, Hbase. reflexivity.
Qed.

(** What [splitext] does to a name without separator that does not start
    with a dot. *)
Lemma splitext_plain_name (s : str) :
  "/"%char ∉ s -> head s <> Some "."%char ->
  (("."%char ∉ s) /\ splitext s = (s, []))
  \/ exists a b, s = a ++ "."%char :: b /\ ("."%char ∉ b)
                 /\ a <> [] /\ splitext s = (a, "."%char :: b).
Proof.
  intros Hsep Hhead.
  destruct (rfind_from_spec s "." 0 (-1)) as [[Hnot _] | (a & b & -> & Hb & _)].
  - left. split; [assumption|]. now apply splitext_no_dot.
  - right. exists a, b. split; [reflexivity|]. split; [assumption|].
    destruct a as [|x a]; [now contradict Hhead|].
    split; [discriminate|].
    apply splitext_last_dot; try assumption.
    simpl. apply orb_true_iff. left. apply negb_true_iff.
    unfold char_eqb. apply bool_decide_eq_false.
    intros ->. now contradict Hhead.
Qed.

(** ** NameSanitizer *)

Lemma generate_secure_filename_shape (h : Host) (name : str) :
  generate_secure_filename h name
  = kept_base (secure_filename name) ++ name_suffix h
    ++ (splitext (secure_filename name)).2.
Proof.
  unfold generate_secure_filename, kept_base, name_suffix.
  destruct (splitext (secure_filename name)) as [[|c base] ext];
    cbn [fst snd]; now rewrite <- !app_assoc.
Qed.

Lemma kept_base_bounds (s : str) :
  kept_base s <> [] /\ (length (kept_base s) <= 50)%nat.
Proof.
  unfold kept_base. destruct (splitext s).1 as [|c base].
  - split; [discriminate | simpl; lia].
  - split; [discriminate|]. rewrite length_take. lia.
Qed.

Lemma kept_base_chars (P : ascii -> bool) (s : str) :
  all_chars P "file" -> all_chars P (splitext s).1 -> all_chars P (kept_base s).
Proof.
  intros Hfile Hs. unfold kept_base.
  destruct (splitext s).1 as [|c base]; [exact Hfile|].
  now apply Forall_take.
Qed.

Lemma file_plain : all_chars plain_char "file".
Proof. repeat constructor. Qed.

Lemma underscore_plain : all_chars plain_char "_".
Proof. repeat constructor. Qed.

Lemma suffix_plain (h : Host) : all_chars plain_char (name_suffix h).
Proof.
  unfold name_suffix.
  apply all_chars_app. split; [apply underscore_plain|].
  apply all_chars_app. split; [apply strftime_plain|].
  apply all_chars_app. split; [apply underscore_plain|].
  apply hexlify_plain.
Qed.

Lemma suffix_length (h : Host) : length (name_suffix h) = 33%nat.
Proof.
  unfold name_suffix, OS.token_hex, OS.token_bytes.
  rewrite !length_app, hexlify_length, strftime_length, length_map, length_seq.
  reflexivity.
Qed.

Lemma splitext_halves_safe (s : str) :
  all_chars safe_char s ->
  all_chars safe_char (splitext s).1 /\ all_chars safe_char (splitext s).2.
Proof. intros Hs. apply all_chars_app. now rewrite splitext_app. Qed.

(** Every character of a generated name is in [[A-Za-z0-9._-]]. *)
Lemma generate_secure_filename_safe (h : Host) (name : str) :
  all_chars safe_char (generate_secure_filename h name).
Proof.
  rewrite generate_secure_filename_shape.
  destruct (splitext_halves_safe _ (secure_filename_safe name)) as [Hb He].
  apply all_chars_app. split; [|apply all_chars_app; split].
  - apply kept_base_chars; [|exact Hb].
    apply (all_chars_impl plain_char); [apply plain_is_safe | apply file_plain].
  - apply (all_chars_impl plain_char); [apply plain_is_safe | apply suffix_plain].
  - exact He.
Qed.

Lemma generate_secure_filename_length (h : Host) (name : str) :
  length (generate_secure_filename h name)
  = (length (kept_base (secure_filename name)) + 33
     + length (splitext (secure_filename name)).2)%nat.
Proof.
  rewrite generate_secure_filename_shape.
  rewrite !length_app, suffix_length. lia.
Qed.

(** The extension of a generated name is the extension of the sanitised
    name, character for character. *)
Lemma generate_secure_filename_ext (h : Host) (name : str) :
  (splitext (generate_secure_filename h name)).2
  = (splitext (secure_filename name)).2.
Proof.
  pose proof (generate_secure_filename_safe h name) as Hsafe.
  apply safe_no_slash in Hsafe.
  rewrite generate_secure_filename_shape in Hsafe |- *.
  pose proof (secure_filename_safe name) as Hs.
  destruct (splitext_plain_name (secure_filename name)
              (safe_no_slash _ Hs) (secure_filename_head name))
    as [[Hdot Hsplit] | (a & b & Heq & Hb & Ha & Hsplit)].
  - rewrite Hsplit. cbn [snd]. rewrite !app_nil_r.
    rewrite splitext_no_dot; [reflexivity|].
    apply plain_no_dot. apply all_chars_app. split; [|apply suffix_plain].
    apply kept_base_chars; [apply file_plain|].
    rewrite Hsplit. cbn [fst]. now apply safe_without_dot_plain.
  - rewrite Hsplit in Hsafe |- *. cbn [snd] in Hsafe |- *.
    rewrite app_assoc in Hsafe |- *.
    rewrite splitext_last_dot; [reflexivity | exact Hsafe | exact Hb |].
    rewrite existsb_app. apply orb_true_iff. right. reflexivity.
Qed.

(** ** Distinct names *)

Lemma hex_digit_inj (n m : N) :
  (n < 16)%N -> (m < 16)%N -> hex_digit n = hex_digit m -> n = m.
Proof.
  intros Hn Hm Heq. apply (f_equal N_of_ascii) in Heq. unfold hex_digit in Heq.
  destruct (n <? 10)%N eqn:En, (m <? 10)%N eqn:Em;
    rewrite !N_ascii_embedding in Heq by lia;
    try apply N.ltb_lt in En; try apply N.ltb_lt in Em;
    try apply N.ltb_ge in En; try apply N.ltb_ge in Em; lia.
Qed.

Lemma byte_to_N_inj (a b : Byte.byte) : Byte.to_N a = Byte.to_N b -> a = b.
Proof.
  intros Heq. pose proof (Byte.of_to_N a) as Ha.
  rewrite Heq, Byte.of_to_N in Ha. congruence.
Qed.

Lemma hexlify_inj (xs ys : list Byte.byte) : hexlify xs = hexlify ys -> xs = ys.
Proof.
  revert ys. induction xs as [|x xs IH]; intros [|y ys]; unfold hexlify;
    cbn [flat_map app]; try discriminate; [reflexivity|].
  fold (hexlify xs). fold (hexlify ys).
  intros [= Hhi Hlo Hrest].
  pose proof (Byte.to_N_bounded x). pose proof (Byte.to_N_bounded y).
  apply hex_digit_inj in Hhi;
    [| apply N.Div0.div_lt_upper_bound; lia
     | apply N.Div0.div_lt_upper_bound; lia ].
  apply hex_digit_inj in Hlo; [| apply N.mod_lt; lia | apply N.mod_lt; lia ].
  f_equal; [|now apply IH].
  apply byte_to_N_inj.
  rewrite (N.div_mod (Byte.to_N x) 16), (N.div_mod (Byte.to_N y) 16) by lia.
  now rewrite Hhi, Hlo.
Qed.

(** Two names generated from one input coincide exactly when the clock
    reading and the random token coincide. *)
Lemma generate_secure_filename_eq (h1 h2 : Host) (name : str) :
  generate_secure_filename h1 name = generate_secure_filename h2 name
  <-> strftime (clock h1 0) = strftime (clock h2 0)
      /\ OS.token_bytes h1 8 = OS.token_bytes h2 8.
Proof.
  rewrite !generate_secure_filename_shape. unfold name_suffix. split.
  - intros Heq. apply app_inv_head in Heq.
    rewrite !app_assoc in Heq. apply app_inv_tail in Heq.
    rewrite <- !app_assoc in Heq. apply app_inv_head in Heq.
    apply app_inj_1 in Heq as [Hts Heq];
      [|now rewrite !strftime_length].
    apply app_inv_head in Heq. split; [exact Hts|].
    now apply hexlify_inj.
  - intros [Hts Htok]. unfold OS.token_hex. now rewrite Hts, Htok.
Qed.

(** C4, as the code has it: the sanitised name has no path separator and
    only safe characters; the base is cut to 50 characters, or is "file"
    when empty; a timestamp and the hexadecimal form of 8 random bytes
    follow; the extension of the sanitised name is put back as it is, its
    case unchanged. *)
Theorem generate_secure_filename_layout (h : Host) (name : str) :
  let safe_name := secure_filename name in
  let base := (splitext safe_name).1 in
  let ext := (splitext safe_name).2 in
  let out := generate_secure_filename h name in
  ("/"%char ∉ safe_name)
  /\ forallb safe_char safe_name = true
  /\ out = (if bool_decide (base = []) then ("file" : str) else take 50 base)
              ++ "_" ++ strftime (clock h 0) ++ "_"
              ++ hexlify (OS.token_bytes h 8) ++ ext
  /\ (length (if bool_decide (base = []) then ("file" : str) else take 50 base)
      <= 50)%nat
  /\ length (OS.token_bytes h 8) = 8%nat
  /\ length (hexlify (OS.token_bytes h 8)) = 16%nat
  /\ forallb lower_hex_char (hexlify (OS.token_bytes h 8)) = true
  /\ (splitext out).2 = ext
  /\ ("/"%char ∉ out).
Proof.
  intros safe_name base ext out.
  pose proof (secure_filename_safe name) as Hsafe. fold safe_name in Hsafe.
  assert (Hbase : kept_base safe_name
                  = if bool_decide (base = []) then ("file" : str)
                    else take 50 base).
  { unfold kept_base. fold base. now destruct base. }
  split; [now apply safe_no_slash|].
  split; [now apply all_chars_forallb|].
  split.
  { subst out. rewrite generate_secure_filename_shape.
    fold safe_name ext. rewrite Hbase. unfold name_suffix, OS.token_hex.
    now rewrite <- !app_assoc. }
  split.
  { rewrite <- Hbase. apply kept_base_bounds. }
  split.
  { unfold OS.token_bytes. now rewrite length_map, length_seq. }
  split.
  { rewrite hexlify_length. unfold OS.token_bytes.
    now rewrite length_map, length_seq. }
  split; [apply hexlify_lower_hex|].
  split; [apply generate_secure_filename_ext|].
  apply safe_no_slash, generate_secure_filename_safe.
Qed.

Lemma long_name_not_reserved (n : str) :
  (3 <= length n)%nat -> n <> [] /\ n <> "." /\ n <> "..".
Proof.
  intros Hlen. repeat split; intros ->; simpl in Hlen; lia.
Qed.

(** C5, as the code has it: a generated name is never empty, [.] or
    [..] and has only characters of [[A-Za-z0-9._-]], on every call; two
    calls on one input give the same name exactly when their clock
    readings, to the second, and their random tokens are the same, so
    they give two different names whenever either differs. *)
Theorem storage_names_safe_and_compared (h1 h2 : Host) (name : str) :
  let n1 := generate_secure_filename h1 name in
  let n2 := generate_secure_filename h2 name in
  (n1 <> [] /\ n1 <> "." /\ n1 <> ".." /\ forallb safe_char n1 = true)
  /\ (n2 <> [] /\ n2 <> "." /\ n2 <> ".." /\ forallb safe_char n2 = true)
  /\ (n1 = n2
      <-> strftime (clock h1 0) = strftime (clock h2 0)
          /\ OS.token_bytes h1 8 = OS.token_bytes h2 8)
  /\ (strftime (clock h1 0) <> strftime (clock h2 0)
      \/ OS.token_bytes h1 8 <> OS.token_bytes h2 8 ->
      n1 <> n2).
Proof.
  intros n1 n2.
  assert (Hinv : forall h, let n := generate_secure_filename h name in
                 n <> [] /\ n <> "." /\ n <> ".." /\ forallb safe_char n = true).
  { intros h n.
    destruct (long_name_not_reserved n) as (H0 & H1 & H2).
    { subst n. rewrite generate_secure_filename_length. lia. }
    repeat split; try assumption.
    apply all_chars_forallb, generate_secure_filename_safe. }
  split; [apply Hinv|]. split; [apply Hinv|]. split.
  - apply generate_secure_filename_eq.
  - intros Hdiff Heq. apply generate_secure_filename_eq in Heq as [Hts Htok].
    destruct Hdiff; contradiction.
Qed.

(* ------------------------------------------------------------------ *)
(** * Further properties of the handlers *)
(* ------------------------------------------------------------------ *)

(** ** [normpath] on a path and on a name joined to it *)

Lemma split_from_nonempty (sep : ascii) (s cur : str) :
  split_from sep s cur <> [].
Proof.
  revert cur. induction s as [|x s IH]; intros cur; simpl; [discriminate|].
  destruct (char_eqb x sep); [discriminate | apply IH].
Qed.

Lemma split_from_app (sep : ascii) (a b cur : str) :
  split_from sep (a ++ sep :: b) cur
  = removelast (split_from sep a cur)
    ++ [default [] (last (split_from sep a cur))] ++ split_from sep b [].
Proof.
  revert cur. induction a as [|x a IH]; intros cur; simpl.
  - unfold char_eqb. rewrite bool_decide_eq_true_2 by reflexivity. reflexivity.
  - destruct (char_eqb x sep).
    + rewrite IH. clear IH.
      pose proof (split_from_nonempty sep a []) as Hne.
      destruct (split_from sep a []) as [|y l]; [contradiction|].
      reflexivity.
    + apply IH.
Qed.

Lemma removelast_last {A} (d : A) (l : list A) :
  l <> [] -> removelast l ++ [default d (last l)] = l.
Proof.
  induction l as [|x l IH]; intros Hl; [contradiction|].
  destruct l as [|y l]; [reflexivity|].
  change (x :: removelast (y :: l) ++ [default d (last (y :: l))] = x :: y :: l).
  f_equal. apply IH. discriminate.
Qed.

(** Cutting at a separator: the fields of [a/b] are those of [a] followed
    by those of [b]. *)
Lemma split_app (sep : ascii) (a b : str) :
  split sep (a ++ sep :: b) = split sep a ++ split sep b.
Proof.
  unfold split. rewrite split_from_app, app_assoc.
  rewrite removelast_last by apply split_from_nonempty. reflexivity.
Qed.

Lemma split_from_absent (sep : ascii) (s cur : str) :
  sep ∉ s -> split_from sep s cur = [rev cur ++ s].
Proof.
  revert cur. induction s as [|x s IH]; intros cur Hs; simpl.
  - now rewrite app_nil_r.
  - apply not_elem_of_cons in Hs as [Hx Hs].
    unfold char_eqb. rewrite bool_decide_eq_false_2 by congruence.
    rewrite IH by assumption. simpl. now rewrite <- app_assoc.
Qed.

Lemma split_absent (sep : ascii) (s : str) : sep ∉ s -> split sep s = [s].
Proof. intros Hs. unfold split. now rewrite split_from_absent. Qed.

Lemma normpath_unfold (path : str) :
  path <> [] ->
  normpath path
  = let p := repeat "/"%char (leading_slashes path)
             ++ PyStr.join "/" (fold_left (norm_step (leading_slashes path))
                                          (split "/" path) []) in
    match p with [] => ("." : str) | _ => p end.
Proof. destruct path; [contradiction | reflexivity]. Qed.

Lemma isabs_cons (path : str) :
  isabs path = true <-> exists rest, path = "/"%char :: rest.
Proof.
  unfold isabs. rewrite startswith_prefix. simpl. reflexivity.
Qed.

Lemma leading_slashes_abs (path : str) :
  isabs path = true ->
  leading_slashes path = 1%nat \/ leading_slashes path = 2%nat.
Proof.
  unfold leading_slashes, isabs. intros ->.
  destruct (_ && _); auto.
Qed.

(** The normal form of an absolute path: its leading slashes and the
    components that the loop keeps. *)
Lemma normpath_abs (path : str) :
  isabs path = true ->
  normpath path
  = repeat "/"%char (leading_slashes path)
    ++ PyStr.join "/" (fold_left (norm_step (leading_slashes path))
                                 (split "/" path) []).
Proof.
  intros Habs. rewrite normpath_unfold.
  - cbv zeta.
    destruct (leading_slashes_abs path Habs) as [-> | ->]; reflexivity.
  - apply isabs_cons in Habs as [rest ->]. discriminate.
Qed.

Lemma norm_step_empty (k : nat) (comps : list str) :
  norm_step k comps [] = comps.
Proof. reflexivity. Qed.

Lemma norm_step_name (k : nat) (comps : list str) (name : str) :
  name <> [] -> name <> "." -> name <> ".." ->
  norm_step k comps name = comps ++ [name].
Proof.
  intros H0 H1 H2. unfold norm_step.
  rewrite (bool_decide_eq_false_2 _ H0), (bool_decide_eq_false_2 _ H1).
  now rewrite (bool_decide_eq_false_2 _ H2).
Qed.

Lemma join_snoc (sep : str) (parts : list str) (p : str) :
  parts <> [] ->
  PyStr.join sep (parts ++ [p]) = PyStr.join sep parts ++ sep ++ p.
Proof.
  induction parts as [|x parts IH]; intros Hne; [contradiction|].
  destruct parts as [|y parts]; [reflexivity|].
  change (x ++ sep ++ PyStr.join sep ((y :: parts) ++ [p])
          = (x ++ sep ++ PyStr.join sep (y :: parts)) ++ sep ++ p).
  rewrite IH by discriminate. now rewrite <- !app_assoc.
Qed.

Lemma startswith_nil (s : str) : startswith s [] = true.
Proof. now destruct s. Qed.

Lemma startswith_short (p t x : str) :
  (length x <= length p)%nat -> startswith (p ++ t) x = startswith p x.
Proof.
  revert p. induction x as [|c x IH]; intros p Hlen.
  - now rewrite !startswith_nil.
  - destruct p as [|d p]; simpl in *; [lia|].
    rewrite IH by lia. reflexivity.
Qed.

(** Appending to an absolute path does not change the count of leading
    slashes, unless a slash is appended right after a final slash. *)
Lemma leading_slashes_app (p t : str) :
  isabs p = true ->
  (last p = Some "/"%char -> head t <> Some "/"%char) ->
  leading_slashes (p ++ t) = leading_slashes p.
Proof.
  intros Habs Hlast. apply isabs_cons in Habs as [rest ->].
  destruct rest as [|c [|d rest]].
  - unfold leading_slashes. destruct t as [|x t]; [reflexivity|].
    simpl. destruct (char_eqb x "/") eqn:E; [|reflexivity].
    apply char_eqb_eq in E as ->. exfalso. now apply Hlast.
  - unfold leading_slashes. simpl.
    destruct (char_eqb c "/") eqn:E; [|reflexivity].
    apply char_eqb_eq in E as ->. simpl.
    destruct t as [|x t]; [reflexivity|]. simpl.
    destruct (char_eqb x "/") eqn:E'; [|reflexivity].
    apply char_eqb_eq in E' as ->. exfalso. now apply Hlast.
  - unfold leading_slashes.
    rewrite !(startswith_short ("/"%char :: c :: d :: rest) t)
      by (simpl; lia).
    reflexivity.
Qed.

Lemma name_not_abs (name : str) : "/"%char ∉ name -> startswith name "/" = false.
Proof.
  intros Hname. destruct name as [|c name]; [reflexivity|].
  simpl. apply not_elem_of_cons in Hname as [Hc _].
  unfold char_eqb. rewrite bool_decide_eq_false_2 by congruence. reflexivity.
Qed.

Lemma name_head_not_slash (name : str) :
  "/"%char ∉ name -> head name <> Some "/"%char.
Proof.
  intros Hname Hhead. apply Hname.
  destruct name as [|c name]; [discriminate|].
  injection Hhead as ->. apply list_elem_of_here.
Qed.

Lemma join_isabs (base name : str) :
  "/"%char ∉ name -> isabs (PosixPath.join base name) = isabs base.
Proof.
  intros Hname. unfold PosixPath.join, isabs.
  rewrite (name_not_abs name Hname).
  destruct base as [|c base]; [now apply name_not_abs|].
  destruct (last (c :: base)) as [d|] eqn:Hlast;
    [|apply last_None in Hlast; discriminate].
  destruct (char_eqb d "/"); now rewrite startswith_short by (simpl; lia).
Qed.

(** The path and the path with a name joined to it normalise to the same
    leading slashes and the same components, the name coming last. *)
Lemma normpath_join_name (p name : str) :
  isabs p = true -> "/"%char ∉ name -> name <> "." -> name <> ".." ->
  exists (k : nat) (comps : list str),
    (k = 1%nat \/ k = 2%nat)
    /\ normpath p = repeat "/"%char k ++ PyStr.join "/" comps
    /\ normpath (PosixPath.join p name)
       = repeat "/"%char k
         ++ PyStr.join "/" (match name with
                            | [] => comps
                            | _ => comps ++ [name]
                            end).
Proof.
  intros Habs Hname Hdot Hdotdot.
  assert (Hstep : forall k comps,
             norm_step k comps name
             = match name with [] => comps | _ => comps ++ [name] end).
  { intros k comps. destruct name as [|c name]; [reflexivity|].
    now apply norm_step_name. }
  assert (Habs' : isabs (PosixPath.join p name) = true)
    by now rewrite join_isabs.
  rewrite (normpath_abs _ Habs), (normpath_abs _ Habs').
  exists (leading_slashes p).
  unfold PosixPath.join in *. rewrite (name_not_abs name Hname) in *.
  destruct (last p) as [c|] eqn:Hlast.
  2:{ apply last_None in Hlast. subst p. discriminate Habs. }
  destruct (char_eqb c "/") eqn:Hc.
  - apply char_eqb_eq in Hc as ->.
    apply last_Some in Hlast as [p' ->].
    exists (fold_left (norm_step (leading_slashes (p' ++ ["/"%char])))
                      (split "/" p') []).
    split; [now apply leading_slashes_abs|].
    rewrite (leading_slashes_app (p' ++ ["/"%char]) name);
      [| assumption | intros _; now apply name_head_not_slash].
    rewrite <- app_assoc. cbn [app].
    rewrite !split_app, (split_absent _ _ Hname).
    change (split "/" []) with [[] : str].
    rewrite !fold_left_app. cbn [fold_left].
    rewrite norm_step_empty, Hstep. split; reflexivity.
  - exists (fold_left (norm_step (leading_slashes p)) (split "/" p) []).
    split; [now apply leading_slashes_abs|].
    rewrite (leading_slashes_app p ("/" ++ name)); [| assumption |].
    2:{ intros Hl. rewrite Hlast in Hl. injection Hl as ->.
        unfold char_eqb in Hc. now rewrite bool_decide_eq_true_2 in Hc. }
    split; [reflexivity|].
    cbn [app list_ascii_of_string].
    rewrite split_app, (split_absent _ _ Hname), fold_left_app.
    cbn [fold_left]. now rewrite Hstep.
Qed.

Lemma below_root (root rest : str) :
  is_root_or_descendant root (root ++ "/" ++ rest) = true.
Proof.
  unfold is_root_or_descendant. apply orb_true_iff. right.
  assert (Hpre : forall x, x = root \/ x = root ++ "/" ->
                 startswith (root ++ "/" ++ rest) x = true).
  { intros x [-> | ->]; apply startswith_prefix; eexists.
    - reflexivity.
    - now rewrite <- app_assoc. }
  apply Hpre. destruct (last root) as [c|]; [|now right].
  destruct c as [[] [] [] [] [] [] [] []]; auto.
Qed.

Lemma join_components_nonempty (k : nat) (comps : list str) (name : str) :
  (k = 1%nat \/ k = 2%nat) ->
  is_root_or_descendant
    (repeat "/"%char k ++ PyStr.join "/" comps)
    (repeat "/"%char k ++ PyStr.join "/" (match name with
                                          | [] => comps
                                          | _ => comps ++ [name]
                                          end)) = true.
Proof.
  intros Hk. destruct name as [|c name].
  - unfold is_root_or_descendant.
    now rewrite bool_decide_eq_true_2.
  - destruct comps as [|x comps].
    + destruct Hk as [-> | ->]; unfold is_root_or_descendant;
        apply orb_true_iff; right; simpl;
        unfold char_eqb; rewrite ?bool_decide_eq_true_2 by reflexivity;
        reflexivity.
    + rewrite join_snoc by discriminate.
      rewrite app_assoc. apply below_root.
Qed.

Lemma join_relative (a b : str) :
  startswith b "/" = false ->
  PosixPath.join a b = a ++ separator_after a ++ b.
Proof.
  intros Hb. unfold PosixPath.join, separator_after. rewrite Hb.
  destruct (last a) as [c|] eqn:Hlast.
  - destruct (char_eqb c "/"); reflexivity.
  - apply last_None in Hlast. now subst a.
Qed.

Lemma separator_after_app (a b : str) :
  b <> [] -> separator_after (a ++ b) = separator_after b.
Proof.
  intros Hb. unfold separator_after. rewrite last_app.
  destruct (last b) eqn:Hlast; [reflexivity|].
  apply last_None in Hlast. contradiction.
Qed.

Lemma separator_after_closed (a : str) :
  separator_after (a ++ separator_after a) = [].
Proof.
  unfold separator_after at 2.
  destruct (last a) as [c|] eqn:Hlast.
  - destruct (char_eqb c "/") eqn:Hc.
    + rewrite app_nil_r. unfold separator_after. now rewrite Hlast, Hc.
    + unfold separator_after. cbn [list_ascii_of_string].
      rewrite last_snoc. unfold char_eqb.
      now rewrite bool_decide_eq_true_2.
  - apply last_None in Hlast. now subst a.
Qed.

Lemma startswith_app_relative (a t : str) :
  a <> [] -> startswith a "/" = false -> startswith (a ++ t) "/" = false.
Proof.
  intros Ha Hrel. destruct a as [|c a]; [contradiction|].
  rewrite startswith_short by (simpl; lia). exact Hrel.
Qed.

(** Joining is associative on relative parts. *)
Lemma join_assoc (a b c : str) :
  startswith b "/" = false -> startswith c "/" = false ->
  PosixPath.join a (PosixPath.join b c)
  = PosixPath.join (PosixPath.join a b) c.
Proof.
  intros Hb Hc.
  rewrite (join_relative b c Hc), (join_relative a b Hb).
  rewrite (join_relative _ c Hc).
  destruct b as [|x b].
  - cbn [app]. change (separator_after []) with ([] : str). cbn [app].
    rewrite (join_relative a c Hc).
    rewrite app_nil_r, separator_after_closed. cbn [app].
    now rewrite <- app_assoc.
  - rewrite join_relative
      by (apply startswith_app_relative; [discriminate | exact Hb]).
    replace (a ++ separator_after a ++ x :: b)
      with ((a ++ separator_after a) ++ x :: b) by now rewrite <- app_assoc.
    rewrite (separator_after_app (a ++ separator_after a) (x :: b))
      by discriminate.
    now rewrite <- !app_assoc.
Qed.

(** A name without separator that is neither [.] nor [..], joined to a
    base that resolves to an absolute path, lies at or below the base;
    [is_path_safe] agrees. *)
Lemma joined_name_within_base (h : Host) (base name : str) :
  resolves_absolute h base ->
  "/"%char ∉ name -> name <> "." -> name <> ".." ->
  spec_path_guard h (PosixPath.join base name) base = true.
Proof.
  intros Hres Hname Hdot Hdotdot.
  unfold spec_path_guard, OS.abspath.
  rewrite (join_isabs base name Hname).
  destruct (isabs base) eqn:Habs.
  - destruct (normpath_join_name base name Habs Hname Hdot Hdotdot)
      as (k & comps & Hk & -> & ->).
    now apply join_components_nonempty.
  - destruct Hres as [Hres | (cwd & Hcwd & Hcwdabs)]; [congruence|].
    rewrite Hcwd.
    assert (Hassoc : PosixPath.join cwd (PosixPath.join base name)
                     = PosixPath.join (PosixPath.join cwd base) name)
      by (apply join_assoc; [exact Habs | now apply name_not_abs]).
    rewrite Hassoc.
    assert (Habs' : isabs (PosixPath.join cwd base) = true).
    { rewrite (join_relative cwd base Habs).
      apply isabs_cons in Hcwdabs as [rest ->].
      apply isabs_cons. eexists. rewrite <- app_comm_cons. reflexivity. }
    destruct (normpath_join_name _ name Habs' Hname Hdot Hdotdot)
      as (k & comps & Hk & -> & ->).
    now apply join_components_nonempty.
Qed.

(** ** Names that are already sanitised *)

Lemma filter_all (f : ascii -> bool) (s : str) :
  all_chars f s -> List.filter f s = s.
Proof.
  unfold all_chars. induction 1 as [|c s Hc _ IH]; simpl; [reflexivity|].
  now rewrite Hc, IH.
Qed.

Lemma safe_char_ascii (c : ascii) :
  safe_char c = true -> (N_of_ascii c <? 128)%N = true.
Proof.
  unfold safe_char. intros H. apply N.ltb_lt.
  repeat (apply orb_true_iff in H as [H | H]);
    try (apply andb_true_iff in H as [_ H]; apply N.leb_le in H; lia);
    apply N.eqb_eq in H; lia.
Qed.

Lemma safe_char_not_space (c : ascii) : safe_char c = true -> isspace c = false.
Proof.
  unfold safe_char, isspace. intros H.
  apply orb_false_iff. split; apply andb_false_iff.
  - repeat (apply orb_true_iff in H as [H | H]);
      try (apply andb_true_iff in H as [H _]; apply N.leb_le in H;
           right; apply N.leb_gt; lia);
      apply N.eqb_eq in H; right; apply N.leb_gt; lia.
  - repeat (apply orb_true_iff in H as [H | H]);
      try (apply andb_true_iff in H as [H _]; apply N.leb_le in H;
           right; apply N.leb_gt; lia);
      apply N.eqb_eq in H; right; apply N.leb_gt; lia.
Qed.

Lemma replace_char_absent (old new : ascii) (s : str) :
  old ∉ s -> replace_char old new s = s.
Proof.
  intros Hs. unfold replace_char. rewrite <- (map_id s) at 2.
  apply map_ext_in. intros c Hin. unfold char_eqb.
  rewrite bool_decide_eq_false_2; [reflexivity|].
  intros ->. apply Hs. now apply list_elem_of_In.
Qed.

Lemma split_ws_from_no_space (s cur : str) :
  all_chars safe_char s -> rev cur ++ s <> [] ->
  split_ws_from s cur = [rev cur ++ s].
Proof.
  unfold all_chars. intros Hs. revert cur.
  induction Hs as [|c s Hc _ IH]; intros cur Hne; simpl.
  - rewrite app_nil_r in Hne |- *.
    destruct cur; [now contradict Hne | reflexivity].
  - rewrite (safe_char_not_space c Hc).
    rewrite IH; simpl; rewrite <- app_assoc; [reflexivity|].
    intros H. now apply app_eq_nil in H as [_ H].
Qed.

Lemma lstrip_kept (chars s : str) (c : ascii) :
  head s = Some c -> c ∉ chars -> lstrip chars s = s.
Proof.
  destruct s as [|x s]; [discriminate|]. intros [= ->] Hc. simpl.
  now rewrite bool_decide_eq_false_2.
Qed.

Lemma strip_kept (chars s : str) (c d : ascii) :
  head s = Some c -> c ∉ chars -> last s = Some d -> d ∉ chars ->
  strip chars s = s.
Proof.
  intros Hhead Hc Hlast Hd. unfold strip, rstrip.
  rewrite (lstrip_kept chars s c Hhead Hc).
  rewrite (lstrip_kept chars (rev s) d); [apply rev_involutive | | exact Hd].
  rewrite <- Hlast. destruct s as [|x s] using rev_ind; [discriminate Hlast|].
  rewrite rev_app_distr, last_snoc. reflexivity.
Qed.

(** [secure_filename] leaves a clean name as it is. *)
Lemma secure_filename_clean (s : str) :
  clean_name s -> secure_filename s = s.
Proof.
  intros (Hsafe & (c & Hhead & Hc) & (d & Hlast & Hd)).
  unfold secure_filename, ascii_ignore.
  rewrite (filter_all _ s)
    by (eapply all_chars_impl; [apply safe_char_ascii | exact Hsafe]).
  rewrite replace_char_absent by now apply safe_no_slash.
  unfold split_ws. rewrite split_ws_from_no_space; [|exact Hsafe|].
  2:{ destruct s; [discriminate Hhead | discriminate]. }
  cbn [rev app PyStr.join].
  rewrite (filter_all _ s Hsafe).
  now apply (strip_kept _ s c d).
Qed.

Lemma strip_last (chars s : str) (d : ascii) :
  last (strip chars s) = Some d -> d ∉ chars.
Proof.
  unfold strip, rstrip. intros Hlast.
  apply (lstrip_head chars (rev (lstrip chars s))).
  rewrite <- Hlast.
  destruct (lstrip chars (rev (lstrip chars s))) as [|x l];
    [reflexivity|].
  simpl. now rewrite last_snoc.
Qed.

(** What [secure_filename] returns is empty or clean. *)
Lemma secure_filename_result (name : str) :
  secure_filename name = [] \/ clean_name (secure_filename name).
Proof.
  destruct (secure_filename name) as [|c s] eqn:E; [now left|]. right.
  rewrite <- E. split; [apply secure_filename_safe|]. split.
  - assert (Hh : head (secure_filename name) = Some c) by now rewrite E.
    exists c. split; [exact Hh|].
    unfold secure_filename in Hh. now apply strip_head in Hh.
  - destruct (last (secure_filename name)) as [d|] eqn:Hlast.
    + exists d. split; [reflexivity|].
      unfold secure_filename in Hlast. now apply strip_last in Hlast.
    + apply last_None in Hlast. congruence.
Qed.

Lemma secure_filename_idempotent (name : str) :
  secure_filename (secure_filename name) = secure_filename name.
Proof.
  destruct (secure_filename_result name) as [-> | Hclean].
  - reflexivity.
  - now apply secure_filename_clean.
Qed.

Lemma secure_filename_not_dots (name : str) :
  secure_filename name <> "." /\ secure_filename name <> "..".
Proof.
  pose proof (secure_filename_head name) as Hhead.
  split; intros E; rewrite E in Hhead; now apply Hhead.
Qed.

Lemma lower_hex_not_stripped (c : ascii) :
  lower_hex_char c = true -> c ∉ ("._" : str).
Proof.
  intros Hc Hin. cbn [list_ascii_of_string] in Hin.
  repeat (apply elem_of_cons in Hin as [-> | Hin]; [discriminate Hc|]).
  now apply elem_of_nil in Hin.
Qed.

Lemma name_suffix_last (h : Host) :
  exists d, last (name_suffix h) = Some d /\ d ∉ ("._" : str).
Proof.
  unfold name_suffix, OS.token_hex.
  pose proof (hexlify_lower_hex (OS.token_bytes h 8)) as Hhex.
  pose proof (hexlify_length (OS.token_bytes h 8)) as Hlen.
  unfold OS.token_bytes in Hlen at 2. rewrite length_map, length_seq in Hlen.
  destruct (hexlify (OS.token_bytes h 8)) as [|x l] using rev_ind;
    [discriminate Hlen|].
  clear IHl. exists x. rewrite !app_assoc, last_snoc. split; [reflexivity|].
  apply lower_hex_not_stripped.
  rewrite forallb_app in Hhex. apply andb_true_iff in Hhex as [_ Hx].
  simpl in Hx. now apply andb_true_iff in Hx as [Hx _].
Qed.

(** A generated name is clean: re-sanitising it changes nothing. *)
Lemma generate_secure_filename_clean (h : Host) (name : str) :
  clean_name (generate_secure_filename h name).
Proof.
  split; [apply generate_secure_filename_safe|].
  rewrite generate_secure_filename_shape.
  pose proof (splitext_app (secure_filename name)) as Happ.
  pose proof (secure_filename_result name) as Hres.
  unfold kept_base. cbv zeta.
  destruct (splitext (secure_filename name)) as [base ext].
  cbn [fst snd] in *. split.
  - destruct base as [|c base].
    + exists "f"%char. split; [reflexivity|].
      intros Hin. cbn [list_ascii_of_string] in Hin.
      repeat (apply elem_of_cons in Hin as [Hin | Hin]; [discriminate Hin|]).
      now apply elem_of_nil in Hin.
    + exists c. split; [reflexivity|].
      destruct Hres as [Hnil | (_ & (c' & Hhead & Hc') & _)].
      * rewrite Hnil in Happ. discriminate Happ.
      * rewrite <- Happ in Hhead. now injection Hhead as ->.
  - destruct ext as [|e ext].
    + rewrite app_nil_r, last_app.
      destruct (name_suffix_last h) as (d & -> & Hd). eauto.
    + destruct Hres as [Hnil | (_ & _ & (d & Hlast & Hd))].
      * rewrite Hnil in Happ. now apply app_eq_nil in Happ as [_ Happ].
      * rewrite <- Happ, last_app in Hlast.
        exists d. rewrite !last_app.
        destruct (last (e :: ext)) as [d'|] eqn:E.
        -- injection Hlast as ->. auto.
        -- apply last_None in E. discriminate E.
Qed.

Lemma generate_secure_filename_fixed (h : Host) (name : str) :
  secure_filename (generate_secure_filename h name)
  = generate_secure_filename h name.
Proof. apply secure_filename_clean, generate_secure_filename_clean. Qed.

Lemma generate_secure_filename_plain_name (h : Host) (name : str) :
  ("/"%char ∉ generate_secure_filename h name)
  /\ generate_secure_filename h name <> "."
  /\ generate_secure_filename h name <> "..".
Proof.
  split; [apply safe_no_slash, generate_secure_filename_safe|].
  destruct (long_name_not_reserved (generate_secure_filename h name))
    as (_ & H1 & H2); [|auto].
  rewrite generate_secure_filename_length. lia.
Qed.

(** ** The path guard at its two call sites *)

(** X1.  [is_path_safe] on a base and a name joined to it: when the base
    resolves to an absolute path and the name has no separator and is
    neither [.] nor [..], the guard answers true, and the joined path
    really is at or below the base. *)
Theorem path_guard_accepts_joined_names (h : Host) (base name : str) :
  resolves_absolute h base ->
  "/"%char ∉ name -> name <> "." -> name <> ".." ->
  is_path_safe h (PosixPath.join base name) base = true
  /\ spec_path_guard h (PosixPath.join base name) base = true.
Proof.
  intros Hres Hname Hdot Hdotdot.
  pose proof (joined_name_within_base h base name Hres Hname Hdot Hdotdot).
  split; [now apply is_path_safe_complete | assumption].
Qed.

(** ** The upload route as a whole *)

(** Either the request is answered before the write, the file system
    untouched, or it gets as far as the write. *)
Lemma upload_pipeline_early scan h fs request :
  (exists r, upload_pipeline scan h fs request = (fs, r) /\ early_response r)
  \/ exists file fs1, stored h fs request file fs1.
Proof.
  unfold upload_pipeline, stored, early_response.
  destruct (request_files request) as [parts|e] eqn:Hreq.
  2:{ left. eexists. split; [reflexivity|]. destruct e; simpl; auto. }
  destruct (request_files_returns _ _ Hreq) as [-> | ->].
  2:{ left. eexists. rewrite lookup_empty. split; [reflexivity|]. auto 10. }
  destruct (files request !! ("file" : str)) as [file|] eqn:Hfile.
  2:{ left. eexists. split; [reflexivity|]. auto 10. }
  destruct (bool_decide (filename file = [])) eqn:Hname.
  { left. eexists. split; [reflexivity|]. auto 10. }
  apply bool_decide_eq_false in Hname.
  destruct (bool_decide (_ ∈ ALLOWED_EXTENSIONS)) eqn:Hgate; cbn [negb].
  2:{ left. eexists. split; [reflexivity|]. auto 10. }
  apply bool_decide_eq_true in Hgate.
  fold (storage_path h file).
  destruct (is_path_safe h (storage_path h file) (upload_folder h)) eqn:Hsafe;
    cbn [negb].
  2:{ left. eexists. split; [reflexivity|]. auto 10. }
  destruct (save h fs file (storage_path h file)) as [fs1|e] eqn:Hsave.
  - right. exists file, fs1. auto 10.
  - left. eexists. split; [reflexivity|].
    unfold save in Hsave. destruct (bool_decide _); [|discriminate].
    injection Hsave as <-. simpl. auto.
Qed.

Lemma early_response_status (r : response) : early_response r -> r.2 <> 200.
Proof.
  unfold early_response. intros H.
  repeat (destruct H as [-> | H]; [discriminate|]). subst r. discriminate.
Qed.

(** After the write the pipeline answers 200 and keeps the stored state,
    or answers otherwise and leaves what [cleanup_file] leaves. *)
Lemma stored_outcome scan h fs request file fs1 :
  stored h fs request file fs1 ->
  (exists size mime digest,
      upload_pipeline scan h fs request
      = (fs1, (Success ("/api/files/" ++ generate_secure_filename h (filename file))
                       (filename file) size mime digest (clock h 1), 200)))
  \/ ((upload_pipeline scan h fs request).1
      = cleanup_file h fs1 (storage_path h file)
      /\ ((exists error, (upload_pipeline scan h fs request).2
                         = (Failure error, 400))
          \/ exists e, (upload_pipeline scan h fs request).2 = on_error e)).
Proof.
  intros Hstored. rewrite (upload_pipeline_stored _ _ _ _ _ _ Hstored).
  pose proof (validate_stored_exits scan h fs1 file
                (generate_secure_filename h (filename file))
                (storage_path h file)) as Hexits.
  cbv zeta in Hexits.
  destruct Hexits as [(size & mime & digest & Hok & _)
                     | [Hfs [[error Hout] | [e Hout]]]].
  - left. exists size, mime, digest. now rewrite Hok.
  - right. destruct (validate_stored _ _ _ _ _ _) as [fs2 out].
    cbn [fst snd] in *. subst. eauto.
  - right. destruct (validate_stored _ _ _ _ _ _) as [fs2 out].
    cbn [fst snd] in *. subst. eauto.
Qed.

Lemma validate_stored_not_invalid_path
    scan h fs file secure_name file_path fs' r :
  validate_stored scan h fs file secure_name file_path = (fs', Returns r) ->
  r <> (Failure (Text "Invalid file path"), 400).
Proof.
  unfold validate_stored. intros H ->.
  repeat case_match; inversion H.
Qed.

(** X2.  When the upload folder resolves to an absolute path, no upload
    is ever answered "Invalid file path": the generated name has no
    separator and is no dot name, so the path guard cannot fail. *)
Theorem upload_never_invalid_path
    (scan : filesys -> str -> outcome ScanVerdict) (h : Host) (fs : filesys)
    (request : Request) :
  resolves_absolute h (upload_folder h) ->
  (upload_pipeline scan h fs request).2
  <> (Failure (Text "Invalid file path"), 400)
  /\ (forall file : FileStorage,
        is_path_safe h (storage_path h file) (upload_folder h) = true
        /\ spec_path_guard h (storage_path h file) (upload_folder h) = true).
Proof.
  intros Hres.
  assert (Hguard : forall file : FileStorage,
             is_path_safe h (storage_path h file) (upload_folder h) = true
             /\ spec_path_guard h (storage_path h file) (upload_folder h)
                = true).
  { intros file.
    destruct (generate_secure_filename_plain_name h (filename file))
      as (H0 & H1 & H2).
    pose proof (joined_name_within_base h (upload_folder h) _ Hres H0 H1 H2)
      as Hin.
    split; [now apply is_path_safe_complete | exact Hin]. }
  split; [|exact Hguard].
  unfold upload_pipeline.
  destruct (request_files request) as [parts|e]; [|destruct e; discriminate].
  destruct (parts !! ("file" : str)) as [file|]; [|discriminate].
  destruct (bool_decide (filename file = [])); [discriminate|].
  destruct (bool_decide (_ ∈ ALLOWED_EXTENSIONS)); cbn [negb]; [|discriminate].
  fold (storage_path h file).
  rewrite (proj1 (Hguard file)). cbn [negb].
  destruct (save h fs file (storage_path h file)) as [fs1|e];
    [|destruct e; discriminate].
  destruct (validate_stored _ _ _ _ _ _) as [fs2 [r|e]] eqn:Hv.
  - cbn [snd]. now apply validate_stored_not_invalid_path in Hv.
  - destruct e; discriminate.
Qed.

Lemma is_allowed_true_registered (name detected_mime : str) error_msg :
  is_allowed_file_type name detected_mime = (true, error_msg) ->
  ext_registered (lower (splitext name).2) detected_mime.
Proof.
  unfold is_allowed_file_type, ext_registered.
  destruct (bool_decide _); cbn [negb]; [|discriminate].
  destruct (ALLOWED_MIME_TYPES !! detected_mime) as [exts|]; [|discriminate].
  destruct (bool_decide (_ ∈ exts)) eqn:Hin; cbn [negb]; [|discriminate].
  intros _. apply bool_decide_eq_true in Hin. eauto.
Qed.

(** X5.  What a 200 answer guarantees: the part named "file" is on disk
    under the generated name with exactly the uploaded bytes; the
    reported size is their count and is within the limit; the reported
    type is the detector's answer for them and is registered for the
    (lower-cased) extension of the original name, which the response
    echoes; the URL ends in the generated name. *)
Theorem accepted_upload_facts
    (scan : filesys -> str -> outcome ScanVerdict) (h : Host)
    (fs fs2 : filesys) (request : Request)
    (url name mime digest : str) (size : Z) (t : datetime) :
  upload_pipeline scan h fs request
  = (fs2, (Success url name size mime digest t, 200)) ->
  exists file,
    files request !! ("file" : str) = Some file
    /\ fs2 = <[storage_path h file := stream file]> fs
    /\ name = filename file
    /\ url = "/api/files/" ++ generate_secure_filename h (filename file)
    /\ size = Z.of_nat (length (stream file))
    /\ size <= MAX_FILE_SIZE
    /\ libmagic h (storage_path h file) (stream file) = Returns mime
    /\ ext_registered (lower (splitext (filename file)).2) mime
    /\ digest = digest_of h (stream file).
Proof.
  intros Hup.
  destruct (upload_pipeline_early scan h fs request)
    as [(r & Hr & Hearly) | (file & fs1 & Hstored)].
  { exfalso. apply early_response_status in Hearly.
    rewrite Hup in Hr. injection Hr as _ <-. now apply Hearly. }
  exists file.
  destruct (accepted_exit _ _ _ _ _ _ _ _ _ _ _ _ _ Hstored Hup)
    as (-> & -> & -> & Hsize & Hmagic & Hpolicy & Hhash).
  destruct (stored_content _ _ _ _ _ Hstored) as [Hfs1 Hfile].
  rewrite (validate_file_size_stored _ _ _ _ _ Hstored) in Hsize.
  destruct (bool_decide (storage_path h file ∈ stat_fails h));
    [discriminate|].
  injection Hsize as Hle <-. apply Z.leb_le in Hle.
  apply get_file_magic_type_some in Hmagic as (content & Hc & Hmagic).
  assert (content = stream file) as -> by congruence.
  destruct (calculate_file_hash_inv _ _ _ _ Hhash) as (content & Hc' & ->).
  assert (content = stream file) as -> by congruence.
  apply is_allowed_true_registered in Hpolicy as Hreg.
  split; [now destruct Hstored as (_ & Hf & _)|].
  repeat split; assumption || reflexivity.
Qed.

(** X6.  Status and body go together: the status is 200, 400, 413 or
    500; it is 200 exactly when the body is a success record; a 500 body
    is always the one fixed message, and a 413 body the size message. *)
Theorem upload_status_matches_body
    (scan : filesys -> str -> outcome ScanVerdict) (h : Host) (fs : filesys)
    (request : Request) :
  let r := (upload_pipeline scan h fs request).2 in
  (r.2 = 200 \/ r.2 = 400 \/ r.2 = 413 \/ r.2 = 500)
  /\ (r.2 = 200 <-> exists url name size mime digest t,
                      r.1 = Success url name size mime digest t)
  /\ (r.2 = 500 -> r.1 = Failure (Text "Upload failed. Please try again."))
  /\ (r.2 = 413 -> r.1 = Failure TooLarge).
Proof.
  assert (Hshape : forall r : response,
             (exists error, r = (Failure error, 400))
             \/ (exists e, r = on_error e)
             \/ (exists url name size mime digest t,
                    r = (Success url name size mime digest t, 200)) ->
             (r.2 = 200 \/ r.2 = 400 \/ r.2 = 413 \/ r.2 = 500)
             /\ (r.2 = 200 <-> exists url name size mime digest t,
                                 r.1 = Success url name size mime digest t)
             /\ (r.2 = 500 ->
                 r.1 = Failure (Text "Upload failed. Please try again."))
             /\ (r.2 = 413 -> r.1 = Failure TooLarge)).
  { intros r [(error & ->) | [(e & ->) | (u & n & s & m & d & t & ->)]].
    - cbn [fst snd]. repeat split; auto; try discriminate.
      intros (? & ? & ? & ? & ? & ? & ?). discriminate.
    - destruct e; cbn [on_error fst snd]; repeat split; auto;
        try discriminate; intros (? & ? & ? & ? & ? & ? & ?); discriminate.
    - cbn [fst snd]. repeat split; auto; try discriminate. eauto 10. }
  cbv zeta. apply Hshape.
  destruct (upload_pipeline_early scan h fs request)
    as [(r & -> & Hearly) | (file & fs1 & Hstored)].
  - cbn [snd]. unfold early_response in Hearly.
    destruct Hearly as [-> | [-> | [-> | [-> | [-> | ->]]]]]; eauto.
    + right. left. now exists RequestEntityTooLarge.
    + right. left. now exists OSError.
  - destruct (stored_outcome scan _ _ _ _ _ Hstored)
      as [(size & mime & digest & ->) | [_ [Hr | Hr]]].
    + right. right. cbn [snd]. eauto 10.
    + left. exact Hr.
    + right. left. exact Hr.
Qed.

(** X7.  With the scanner of the source, which reports every file as
    clean, [upload_file] never answers "File failed security scan". *)
Theorem placeholder_scan_never_rejects
    (h : Host) (fs : filesys) (request : Request) :
  (upload_file h fs request).2
  <> (Failure (Text "File failed security scan"), 400).
Proof.
  unfold upload_file, upload_pipeline.
  destruct (request_files request) as [parts|e]; [|destruct e; discriminate].
  destruct (parts !! ("file" : str)) as [file|]; [|discriminate].
  destruct (bool_decide (filename file = [])); [discriminate|].
  destruct (bool_decide (_ ∈ ALLOWED_EXTENSIONS)); cbn [negb]; [|discriminate].
  destruct (is_path_safe _ _ _); cbn [negb]; [|discriminate].
  destruct (save _ _ _ _) as [fs1|e]; [|destruct e; discriminate].
  unfold validate_stored, scan_file_for_viruses. cbn [clean negb].
  destruct (validate_file_size _ _ _ _) as [[] file_size]; cbn [negb snd];
    [|discriminate].
  destruct (get_file_magic_type _ _ _) as [[|c mime]|]; cbn [snd];
    try discriminate.
  destruct (is_allowed_file_type _ _) as [[] error_msg]; cbn [snd];
    [|discriminate].
  destruct (calculate_file_hash _ _ _) as [digest|e]; cbn [snd];
    [discriminate | destruct e; discriminate].
Qed.

(** X8.  [cleanup_file] is safe to call at any time: on a path with no
    file it changes nothing, a second call changes nothing more, and no
    other path is affected. *)
Theorem cleanup_file_idempotent (h : Host) (fs : filesys) (file_path : str) :
  (fs !! file_path = None -> cleanup_file h fs file_path = fs)
  /\ cleanup_file h (cleanup_file h fs file_path) file_path
     = cleanup_file h fs file_path
  /\ (forall other, other <> file_path ->
        cleanup_file h fs file_path !! other = fs !! other).
Proof.
  assert (Hmissing : forall fs' : filesys,
             fs' !! file_path = None -> cleanup_file h fs' file_path = fs').
  { intros fs' Hnone. unfold cleanup_file, OS.path_exists.
    rewrite bool_decide_eq_false_2; [reflexivity|].
    rewrite Hnone. now intros [? ?]. }
  split; [apply Hmissing|]. split; [|apply cleanup_file_other].
  destruct (decide (file_path ∈ unlink_fails h)) as [Hrm | Hrm].
  - now rewrite !cleanup_file_swallows.
  - apply Hmissing. apply path_exists_lookup.
    now apply cleanup_file_removes.
Qed.

(** X9.  The exception path: when every check passes but the stored file
    cannot be opened for hashing, the exception reaches the outer
    handler after [cleanup_file] has run, and the answer is the fixed
    500 message. *)
Theorem hashing_failure_answers_500
    (scan : filesys -> str -> outcome ScanVerdict) (h : Host) (fs : filesys)
    (request : Request) (file : FileStorage) (fs1 : filesys)
    (size : Z) (c : ascii) (mime : str) (verdict : ScanVerdict) :
  stored h fs request file fs1 ->
  validate_file_size h fs1 (storage_path h file) MAX_FILE_SIZE = (true, size) ->
  get_file_magic_type h fs1 (storage_path h file) = Some (c :: mime) ->
  is_allowed_file_type (filename file) (c :: mime) = (true, None) ->
  scan fs1 (storage_path h file) = Returns verdict ->
  clean verdict = true ->
  storage_path h file ∈ open_fails h ->
  upload_pipeline scan h fs request
  = (cleanup_file h fs1 (storage_path h file),
     (Failure (Text "Upload failed. Please try again."), 500)).
Proof.
  intros Hstored Hsize Hmagic Hpolicy Hscan Hclean Hopen.
  rewrite (upload_pipeline_stored _ _ _ _ _ _ Hstored).
  unfold validate_stored.
  rewrite Hsize. cbn [negb]. rewrite Hmagic, Hpolicy, Hscan, Hclean.
  cbn [negb]. unfold calculate_file_hash, OS.open_rb.
  destruct (stored_content _ _ _ _ _ Hstored) as [_ ->].
  now rewrite (bool_decide_eq_true_2 _ Hopen).
Qed.

(** X10.  A name whose extension is empty (no dot at all, or only
    leading dots as in [.jpg]) is refused at the gate, before anything
    is written, and the type policy refuses it too. *)
Theorem empty_extension_rejected
    (scan : filesys -> str -> outcome ScanVerdict) (h : Host) (fs : filesys)
    (request : Request) (file : FileStorage) (detected_mime : str) :
  request_files request = Returns (files request) ->
  files request !! ("file" : str) = Some file ->
  filename file <> [] ->
  (splitext (filename file)).2 = [] ->
  upload_pipeline scan h fs request = (fs, (Failure TypeNotAllowed, 400))
  /\ is_allowed_file_type (filename file) detected_mime
     = (false, Some ("Extension  not allowed" : str)).
Proof.
  intros Hreq Hfile Hname Hext.
  assert (Hnot : ([] : str) ∉ ALLOWED_EXTENSIONS).
  { apply (bool_decide_unpack _). vm_compute. exact I. }
  split.
  - unfold upload_pipeline. rewrite Hreq, Hfile.
    rewrite (bool_decide_eq_false_2 _ Hname), Hext. cbn [lower map].
    now rewrite (bool_decide_eq_false_2 _ Hnot).
  - unfold is_allowed_file_type. rewrite Hext. cbn [lower map].
    now rewrite (bool_decide_eq_false_2 _ Hnot).
Qed.

(** ** The two allow-lists *)

Lemma mime_table_entries (detected_mime : str) (exts : list str) :
  ALLOWED_MIME_TYPES !! detected_mime = Some exts ->
  (detected_mime, exts)
  ∈ [ ("application/pdf" : str, [".pdf" : str]);
      ("application/msword" : str, [".doc" : str]);
      ("application/vnd.openxmlformats-officedocument.wordprocessingml.document" : str,
       [".docx" : str]);
      ("text/plain" : str, [".txt" : str]);
      ("image/jpeg" : str, [".jpg" : str; ".jpeg" : str]);
      ("image/png" : str, [".png" : str]);
      ("image/gif" : str, [".gif" : str]) ].
Proof.
  unfold ALLOWED_MIME_TYPES. intros Hlookup.
  apply elem_of_list_to_map in Hlookup; [exact Hlookup|].
  apply (bool_decide_unpack _). vm_compute. exact I.
Qed.

Local Ltac listed := apply (bool_decide_unpack _); vm_compute; exact I.

Lemma registered_cases (ext detected_mime : str) :
  ext_registered ext detected_mime ->
  (ext, detected_mime)
  ∈ [ (".pdf" : str, "application/pdf" : str);
      (".doc" : str, "application/msword" : str);
      (".docx" : str,
       "application/vnd.openxmlformats-officedocument.wordprocessingml.document" : str);
      (".txt" : str, "text/plain" : str);
      (".jpg" : str, "image/jpeg" : str);
      (".jpeg" : str, "image/jpeg" : str);
      (".png" : str, "image/png" : str);
      (".gif" : str, "image/gif" : str) ].
Proof.
  intros (exts & Hlookup & Hin).
  apply mime_table_entries in Hlookup.
  repeat (apply elem_of_cons in Hlookup as [[= -> ->] | Hlookup];
          [ repeat (apply elem_of_cons in Hin as [-> | Hin]; [listed|]);
            now apply elem_of_nil in Hin | ]).
  now apply elem_of_nil in Hlookup.
Qed.

(** X11.  The two allow-lists agree: an extension registered for some
    MIME type is in the extension list, and every extension of the list
    is registered for exactly one MIME type; so [is_allowed_file_type]
    accepts exactly the pairs of the mapping. *)
Theorem allow_lists_agree :
  (forall ext detected_mime : str,
      ext_registered ext detected_mime -> ext_listed ext)
  /\ (forall ext : str,
        ext_listed ext ->
        exists detected_mime,
          ext_registered ext detected_mime
          /\ forall other, ext_registered ext other -> other = detected_mime)
  /\ (forall name detected_mime : str,
        is_allowed_file_type name detected_mime = (true, None)
        <-> ext_registered (lower (splitext name).2) detected_mime).
Proof.
  assert (Hsub : forall ext detected_mime : str,
             ext_registered ext detected_mime -> ext_listed ext).
  { intros ext mime Hreg. apply registered_cases in Hreg.
    unfold ext_listed.
    repeat (apply elem_of_cons in Hreg as [[= -> ->] | Hreg]; [listed|]).
    now apply elem_of_nil in Hreg. }
  split; [exact Hsub|]. split.
  - intros ext Hext. unfold ext_listed, ALLOWED_EXTENSIONS in Hext.
    apply elem_of_list_to_set in Hext.
    repeat (apply elem_of_cons in Hext as [-> | Hext];
            [ match goal with
              | |- exists m, ext_registered ?e m /\ _ =>
                  let m := eval vm_compute in
                    (default [] (head (omap (fun kv : str * list str =>
                        if bool_decide (e ∈ kv.2) then Some kv.1 else None)
                        (map_to_list ALLOWED_MIME_TYPES)))) in
                  exists m
              end;
              split;
              [ eexists; split; [vm_compute; reflexivity | listed]
              | intros other Hother; apply registered_cases in Hother;
                repeat (apply elem_of_cons in Hother as [Hother | Hother];
                        [ first [ discriminate Hother
                                | now injection Hother as -> ] | ]);
                now apply elem_of_nil in Hother ]
            | ]).
    now apply elem_of_nil in Hext.
  - intros name mime. split; [apply is_allowed_true_registered|].
    intros Hreg. pose proof (Hsub _ _ Hreg) as Hext.
    destruct Hreg as (exts & Hlookup & Hin).
    unfold is_allowed_file_type, ext_listed in *.
    rewrite (bool_decide_eq_true_2 _ Hext), Hlookup.
    now rewrite (bool_decide_eq_true_2 _ Hin).
Qed.

(** ** The download route *)

Section Download.

Variable send_from_directory : filesys -> str -> str -> option (list Byte.byte).
Variable isdir : str -> bool.

(** X12.  [get_file] and path traversal: whatever name is requested, the
    name handed to [send_from_directory] is the sanitised one, which has
    no separator and is no dot name; when the upload folder resolves to
    an absolute path the answer is never 403, and a served file always
    carries the three security headers. *)
Theorem get_file_confined (h : Host) (fs : filesys) (filename : str) :
  resolves_absolute h (upload_folder h) ->
  let name := secure_filename filename in
  (forall error, get_file send_from_directory isdir h fs filename
                 <> Refusal error 403)
  /\ (forall content headers,
        get_file send_from_directory isdir h fs filename
        = Attachment content headers ->
        headers = security_headers
        /\ send_from_directory fs (upload_folder h) name = Some content)
  /\ ("/"%char ∉ name) /\ name <> "." /\ name <> ".."
  /\ spec_path_guard h (PosixPath.join (upload_folder h) name)
                     (upload_folder h) = true.
Proof.
  intros Hres name.
  assert (Hslash : "/"%char ∉ name)
    by apply safe_no_slash, secure_filename_safe.
  destruct (secure_filename_not_dots filename) as [Hdot Hdotdot].
  pose proof (joined_name_within_base h (upload_folder h) name
                Hres Hslash Hdot Hdotdot) as Hin.
  pose proof (is_path_safe_complete _ _ _ Hin) as Hsafe.
  repeat split; try assumption.
  - intros error. unfold get_file. fold name. rewrite Hsafe. cbn [negb].
    destruct (negb _); [discriminate|].
    destruct (send_from_directory _ _ _); discriminate.
  - revert H. unfold get_file. fold name. rewrite Hsafe. cbn [negb].
    destruct (negb _); [discriminate|].
    destruct (send_from_directory _ _ _); [|discriminate].
    now intros [= _ <-].
  - revert H. unfold get_file. fold name. rewrite Hsafe. cbn [negb].
    destruct (negb _); [discriminate|].
    destruct (send_from_directory _ _ _); [|discriminate].
    now intros [= <- _].
Qed.

(** X13.  [get_file] answers for a name as it answers for its sanitised
    form: sanitising twice is sanitising once. *)
Theorem get_file_sanitised_name (h : Host) (fs : filesys) (filename : str) :
  get_file send_from_directory isdir h fs (secure_filename filename)
  = get_file send_from_directory isdir h fs filename.
Proof. unfold get_file. now rewrite secure_filename_idempotent. Qed.

(** When nothing, file or directory, is at the sanitised path,
    [get_file] answers 404 or, if the guard fails, 403; it never calls
    the file server and never answers 200 or 500. *)
Lemma get_file_missing (h : Host) (fs : filesys) (filename : str) :
  let file_path := PosixPath.join (upload_folder h) (secure_filename filename) in
  fs !! file_path = None -> isdir file_path = false ->
  get_file send_from_directory isdir h fs filename
  = if is_path_safe h file_path (upload_folder h)
    then Refusal "File not found" 404
    else Refusal "Access denied" 403.
Proof.
  intros file_path Hnone Hdir. unfold get_file. fold file_path.
  destruct (is_path_safe h file_path (upload_folder h)); [|reflexivity].
  cbn [negb]. rewrite Hdir, orb_false_r.
  apply path_exists_lookup in Hnone. now rewrite Hnone.
Qed.

(** X14.  Round trip: with a file server that streams the regular file
    at the joined path, the URL of an accepted upload names a file that
    [get_file] serves, with the uploaded bytes and the security
    headers. *)
Theorem accepted_upload_is_served
    (scan : filesys -> str -> outcome ScanVerdict) (h : Host)
    (fs fs2 : filesys) (request : Request)
    (url name mime digest : str) (size : Z) (t : datetime) :
  (forall (fs' : filesys) (directory path : str) content,
      fs' !! PosixPath.join directory path = Some content ->
      send_from_directory fs' directory path = Some content) ->
  upload_pipeline scan h fs request
  = (fs2, (Success url name size mime digest t, 200)) ->
  exists file stored_name,
    files request !! ("file" : str) = Some file
    /\ url = "/api/files/" ++ stored_name
    /\ get_file send_from_directory isdir h fs2 stored_name
       = Attachment (stream file) security_headers.
Proof.
  intros Hserve Hup.
  destruct (upload_pipeline_early scan h fs request)
    as [(r & Hr & Hearly) | (file & fs1 & Hstored)].
  { exfalso. apply early_response_status in Hearly.
    rewrite Hup in Hr. injection Hr as _ <-. now apply Hearly. }
  destruct (accepted_exit _ _ _ _ _ _ _ _ _ _ _ _ _ Hstored Hup)
    as (-> & -> & _).
  destruct (stored_content _ _ _ _ _ Hstored) as [_ Hfile].
  exists file, (generate_secure_filename h (filename file)).
  split; [now destruct Hstored as (_ & Hf & _)|]. split; [reflexivity|].
  unfold get_file. rewrite generate_secure_filename_fixed.
  fold (storage_path h file).
  destruct Hstored as (_ & _ & _ & _ & -> & _). cbn [negb].
  unfold OS.path_exists. rewrite bool_decide_eq_true_2 by eauto.
  cbn [orb negb].
  now rewrite (Hserve fs1 (upload_folder h) _ (stream file) Hfile).
Qed.

End Download.

(** X15.  A generated name is already sanitised: it has only safe
    characters, begins and ends with neither a dot nor an underscore,
    and [secure_filename] returns it unchanged. *)
Theorem generated_name_is_sanitised (h : Host) (name : str) :
  clean_name (generate_secure_filename h name)
  /\ secure_filename (generate_secure_filename h name)
     = generate_secure_filename h name.
Proof.
  split; [apply generate_secure_filename_clean|].
  apply secure_filename_clean, generate_secure_filename_clean.
Qed.

(** ** More on the stages *)

(** X16.  Hashing can be resumed: feeding [a] and then [b] leaves the
    hash object as feeding [a ++ b] in one go does, whatever the block
    boundaries; an empty file feeds nothing. *)
Theorem hash_chunks_resumes (o : hash_obj) (a b : list Byte.byte) :
  hash_chunks (hash_chunks o a) b = hash_chunks o (a ++ b)
  /\ hash_chunks o [] = o.
Proof.
  assert (Heq : forall o1 o2 : hash_obj, fed o1 = fed o2 -> o1 = o2).
  { intros [f1] [f2]. simpl. now intros ->. }
  split; apply Heq; rewrite !hash_chunks_whole.
  - now rewrite app_assoc.
  - apply app_nil_r.
Qed.





(** X18.  The scanner contract: on an unclean verdict the upload is
    answered "File failed security scan" after [cleanup_file]; when the
    scanner itself raises, the answer is the one the outer handler gives
    for that exception, also after [cleanup_file]. *)
Theorem scanner_verdict_is_enforced
    (scan : filesys -> str -> outcome ScanVerdict) (h : Host) (fs : filesys)
    (request : Request) (file : FileStorage) (fs1 : filesys)
    (size : Z) (c : ascii) (mime : str) :
  stored h fs request file fs1 ->
  validate_file_size h fs1 (storage_path h file) MAX_FILE_SIZE = (true, size) ->
  get_file_magic_type h fs1 (storage_path h file) = Some (c :: mime) ->
  is_allowed_file_type (filename file) (c :: mime) = (true, None) ->
  (forall verdict,
      scan fs1 (storage_path h file) = Returns verdict ->
      clean verdict = false ->
      upload_pipeline scan h fs request
      = (cleanup_file h fs1 (storage_path h file),
         (Failure (Text "File failed security scan"), 400)))
  /\ (forall e,
        scan fs1 (storage_path h file) = Raises e ->
        upload_pipeline scan h fs request
        = (cleanup_file h fs1 (storage_path h file), on_error e)).
Proof.
  intros Hstored Hsize Hmagic Hpolicy.
  rewrite (upload_pipeline_stored _ _ _ _ _ _ Hstored).
  unfold validate_stored.
  rewrite Hsize. cbn [negb]. rewrite Hmagic, Hpolicy.
  split.
  - intros verdict -> ->. reflexivity.
  - intros e ->. reflexivity.
Qed.
(** ** The handler on concrete uploads *)

Section Runs.
Import Fixture.

Local Ltac by_running := vm_compute; first [reflexivity | exact I | discriminate].

(** On a host where writing succeeds, a request passes the stages
    before the write as soon as the three checks made there pass. *)
Lemma fixture_stored (h : Host) (request : Request) (file : FileStorage) :
  request_files request = Returns (files request) ->
  files request !! ("file" : str) = Some file ->
  filename file <> [] ->
  bool_decide (lower (splitext (filename file)).2 ∈ ALLOWED_EXTENSIONS)
  = true ->
  is_path_safe h (storage_path h file) (upload_folder h) = true ->
  write_fails h = ∅ ->
  stored h ∅ request file (<[storage_path h file := stream file]> ∅).
Proof.
  intros Hreq Hfile Hname Hgate Hsafe Hwrite. unfold stored.
  split; [exact Hreq|]. split; [exact Hfile|].
  split; [exact Hname|].
  split; [now apply bool_decide_eq_true in Hgate|].
  split; [exact Hsafe|].
  unfold save. rewrite Hwrite.
  rewrite bool_decide_eq_false_2 by apply not_elem_of_empty. reflexivity.
Qed.

Local Ltac run_stored :=
  apply fixture_stored;
  [ apply request_files_chunked; [reflexivity | by_running]
  | apply lookup_singleton_eq
  | discriminate
  | unfold payload, photo, blob, notes; cbn [filename]; by_running
  | unfold storage_path, payload, photo, blob, notes; cbn [filename];
    by_running
  | reflexivity ].

Lemma oversized_length : Z.of_nat (length oversized) = MAX_FILE_SIZE + 1.
Proof.
  unfold oversized. rewrite repeat_length, Z2Nat.id; [reflexivity|].
  unfold MAX_FILE_SIZE. lia.
Qed.

(** Witness of [rejection_runs_cleanup]: an executable named
    [payload.jpg] is stored, rejected by the type policy and removed. *)
Lemma rejection_runs_cleanup_witness :
  stored host ∅ (upload "payload.jpg" exe_bytes) payload
         (<[storage_path host payload := stream payload]> ∅)
  /\ (upload_file host ∅ (upload "payload.jpg" exe_bytes)).2.2 <> 200
  /\ (upload_file host ∅ (upload "payload.jpg" exe_bytes)).1
      = cleanup_file host (<[storage_path host payload := stream payload]> ∅)
                     (storage_path host payload)
  /\ (storage_path host payload ∉ unlink_fails host ->
      OS.path_exists (upload_file host ∅ (upload "payload.jpg" exe_bytes)).1
                     (storage_path host payload) = false)
  /\ (storage_path host payload ∈ unlink_fails host ->
      (upload_file host ∅ (upload "payload.jpg" exe_bytes)).1
      = <[storage_path host payload := stream payload]> ∅).
Proof.
  assert (Hstored : stored host ∅ (upload "payload.jpg" exe_bytes) payload
                           (<[storage_path host payload := stream payload]> ∅))
    by run_stored.
  assert (Hstatus : (upload_file host ∅
                       (upload "payload.jpg" exe_bytes)).2.2 <> 200)
    by by_running.
  split; [exact Hstored|]. split; [exact Hstatus|].
  exact (rejection_runs_cleanup scan_file_for_viruses host ∅ _ payload _
           Hstored Hstatus).
Defined.

(** C2 fails as stated: on a host where [os.remove] raises for the
    storage path, the same upload is rejected with status 400 and the
    stored file is still there. *)
Lemma rejection_leaves_file_when_remove_raises :
  let h := read_only [storage_path host payload] in
  stored h ∅ (upload "payload.jpg" exe_bytes) payload
         (<[storage_path h payload := stream payload]> ∅)
  /\ (upload_file h ∅ (upload "payload.jpg" exe_bytes)).2
      = (Failure (Reason (Some (reason_mime "application/x-dosexec"))), 400)
  /\ OS.path_exists (upload_file h ∅ (upload "payload.jpg" exe_bytes)).1
                    (storage_path h payload) = true.
Proof.
  cbv zeta. split; [run_stored|]. split; by_running.
Qed.



(** An upload of 10 MiB and one byte on the wire: sent without a
    declared length it is answered 413; declared as 10 bytes long it is
    cut at 10 bytes and answered "No file provided".  Nothing is written
    either way. *)
Example oversize_upload_on_the_wire :
  upload_file host ∅ (upload "huge.jpg" oversized)
  = (∅, (Failure TooLarge, 413))
  /\ upload_file host ∅ (upload_declaring 10 "huge.jpg" oversized)
     = (∅, (Failure (Text "No file provided"), 400)).
Proof.
  assert (Hbody : MAX_CONTENT_LENGTH < needed_length (upload "huge.jpg" oversized)
                  /\ needed_length (upload "huge.jpg" oversized)
                     <= body_length (upload "huge.jpg" oversized)).
  { pose proof (part_within_body (upload "huge.jpg" oversized) "file" huge
                  (lookup_singleton_eq _ _)) as [Hle Hall].
    cbn [stream huge] in Hle. rewrite oversized_length in Hle.
    unfold MAX_CONTENT_LENGTH. lia. }
  destruct Hbody as [Hneed Hall].
  assert (Hlimit : 10 < MAX_CONTENT_LENGTH) by reflexivity.
  split; unfold upload_file, upload_pipeline, request_files.
  - cbn [content_length upload].
    replace (body_length (upload "huge.jpg" oversized) >=? MAX_CONTENT_LENGTH)
      with true
      by (symmetry; rewrite Z.geb_leb; apply Z.leb_le; lia).
    reflexivity.
  - change (needed_length (upload_declaring 10 "huge.jpg" oversized))
      with (needed_length (upload "huge.jpg" oversized)).
    cbn [content_length upload_declaring].
    replace (10 >? MAX_CONTENT_LENGTH) with false by reflexivity.
    replace (10 <? needed_length (upload "huge.jpg" oversized))
      with true by (symmetry; apply Z.ltb_lt; lia).
    now rewrite lookup_empty.
Qed.

(** Witness of [sniff_failure_rejected]: the detector raises on a
    stored image. *)
Lemma sniff_failure_rejected_witness :
  let h := magic_broken in
  let request := upload "photo.jpg" jpeg_bytes in
  let fs1 : filesys := <[storage_path h photo := stream photo]> ∅ in
  get_file_magic_type h fs1 (storage_path h photo) = None
  /\ upload_file h ∅ request
     = (cleanup_file h fs1 (storage_path h photo),
        (Failure (Text "Could not verify file type"), 400))
  /\ OS.path_exists (upload_file h ∅ request).1 (storage_path h photo)
     = false.
Proof.
  intros h request fs1.
  destruct (sniff_failure_rejected scan_file_for_viruses h ∅ request photo fs1)
    as (Hraise & _); [run_stored | by_running |].
  destruct (Hraise MagicException eq_refl) as (Hnone & Hup & Hgone).
  split; [exact Hnone|]. split; [exact Hup|].
  apply Hgone. apply not_elem_of_empty.
Defined.

(** C8 fails as stated: content that the detector does not recognise
    gets the detector's fallback type, not [None].  Four bytes without a
    signature, named [report.pdf], come back as
    [application/octet-stream] and the upload goes on to the type policy,
    which refuses that type; five letters without a signature, named
    [notes.txt], come back as [text/plain] from a detector that falls
    back to it, and the upload is accepted. *)
Lemma unrecognised_content_is_typed :
  let fs1 : filesys := <[storage_path host blob := stream blob]> ∅ in
  let fs2 : filesys := <[storage_path text_aware notes := stream notes]> ∅ in
  stored host ∅ (upload "report.pdf" blob_bytes) blob fs1
  /\ get_file_magic_type host fs1 (storage_path host blob)
     = Some ("application/octet-stream" : str)
  /\ (upload_file host ∅ (upload "report.pdf" blob_bytes)).2
     = (Failure (Reason (Some (reason_mime "application/octet-stream"))), 400)
  /\ stored text_aware ∅ (upload "notes.txt" note_bytes) notes fs2
  /\ get_file_magic_type text_aware fs2 (storage_path text_aware notes)
     = Some ("text/plain" : str)
  /\ (upload_file text_aware ∅ (upload "notes.txt" note_bytes)).2
     = (Success "/api/files/notes_20240309_070559_031425364758697a.txt"
                "notes.txt" 5 "text/plain" "14" instant, 200).
Proof.
  cbv zeta. split; [run_stored|]. split; [by_running|]. split; [by_running|].
  split; [run_stored|]. split; by_running.
Qed.

(** Witness of [validate_file_size_boundary]: six bytes against a
    limit of six; a size that cannot be read. *)
Lemma validate_file_size_boundary_witness :
  let p := storage_path host photo in
  validate_file_size host {[ p := jpeg_bytes ]} p 6 = (true, 6)
  /\ validate_file_size (stat_broken [p]) {[ p := jpeg_bytes ]} p
                        MAX_FILE_SIZE = (false, 0)
  /\ (upload_file (stat_broken [p]) ∅ (upload "photo.jpg" jpeg_bytes)).2
     = (Failure (SizeExceeds 0), 400).
Proof.
  intros p.
  destruct validate_file_size_boundary as (Hedge & Hfail & Hreject).
  split; [|split].
  - apply (Hedge host _ p jpeg_bytes 6).
    + apply lookup_singleton_eq.
    + apply not_elem_of_empty.
    + reflexivity.
  - apply (Hfail _ _ p MAX_FILE_SIZE OSError). by_running.
  - apply (Hreject scan_file_for_viruses (stat_broken [p]) ∅ _ photo
             (<[storage_path (stat_broken [p]) photo := stream photo]> ∅)
             OSError).
    + run_stored.
    + by_running.
Defined.

(** Witness of [accepted_hash_roundtrip]: a JPEG image is accepted and
    its reported hash is that of the stored bytes. *)
Lemma accepted_hash_roundtrip_witness :
  let fs1 : filesys := <[storage_path host photo := stream photo]> ∅ in
  fs1 !! storage_path host photo = Some (stream photo)
  /\ ("c6" : str) = digest_of host (stream photo)
  /\ calculate_file_hash host fs1 (storage_path host photo) = Returns ("c6" : str)
  /\ forallb lower_hex_char ("c6" : str) = true
  /\ length ("c6" : str) = (2 * length (sha256 host (stream photo)))%nat
  /\ (forall (o : hash_obj) (f : list Byte.byte),
        fed (hash_chunks o f) = fed o ++ f).
Proof.
  intros fs1.
  apply (accepted_hash_roundtrip scan_file_for_viruses host ∅ fs1 fs1
           (upload "photo.jpg" jpeg_bytes) photo
           ("/api/files/" ++ generate_secure_filename host "photo.jpg")
           "photo.jpg" "image/jpeg" "c6" 6 instant).
  - run_stored.
  - apply (accepted_when scan_file_for_viruses host ∅ _ photo fs1 6
             "i"%char ("mage/jpeg" : str)
             {| clean := true; threats := [] |} ("c6" : str)).
    + run_stored.
    + by_running.
    + by_running.
    + by_running.
    + reflexivity.
    + reflexivity.
    + by_running.
Defined.

(** C1 at a failing input: a path with a [..] segment that resolves to
    a sibling of the root whose name extends the root's name.  The
    canonical form is outside the root, and [is_path_safe] answers
    true, against its docstring ("Ensures file path is within the
    allowed directory").  The other half of the contract holds: a path
    at or below the root is accepted, and a resolution error gives
    false. *)
Theorem is_path_safe_accepts_sibling :
  OS.abspath host "/srv/app/uploads/../uploads_evil/shell.txt"
  = Returns ("/srv/app/uploads_evil/shell.txt" : str)
  /\ OS.abspath host "/srv/app/uploads" = Returns ("/srv/app/uploads" : str)
  /\ spec_path_guard host "/srv/app/uploads/../uploads_evil/shell.txt"
                     "/srv/app/uploads" = false
  /\ is_path_safe host "/srv/app/uploads/../uploads_evil/shell.txt"
                  "/srv/app/uploads" = true
  /\ (forall (h : Host) (file_path base_directory : str),
        spec_path_guard h file_path base_directory = true ->
        is_path_safe h file_path base_directory = true)
  /\ (forall (h : Host) (file_path base_directory : str) (e : exn),
        OS.abspath h base_directory = Raises e
        \/ OS.abspath h file_path = Raises e ->
        is_path_safe h file_path base_directory = false).
Proof.
  split; [by_running|]. split; [by_running|].
  split; [by_running|]. split; [by_running|].
  split; [apply is_path_safe_complete | apply is_path_safe_fails_closed].
Qed.

(** C4 fails as stated: the extension goes back as it came.  For
    [PHOTO.JPG] the stored name ends in [.JPG], not in [.jpg]. *)
Lemma extension_case_is_kept :
  generate_secure_filename host "PHOTO.JPG"
  = ("PHOTO_20240309_070559_031425364758697a.JPG" : str)
  /\ (splitext (generate_secure_filename host "PHOTO.JPG")).2
     = (".JPG" : str)
  /\ (splitext (generate_secure_filename host "PHOTO.JPG")).2
     <> lower (splitext "PHOTO.JPG").2.
Proof. repeat split; by_running. Qed.

(** Directory names are not dropped: the separators go and the
    components are joined. *)
Example directories_are_flattened :
  secure_filename "../../etc/passwd" = ("etc_passwd" : str)
  /\ secure_filename "dir/photo.jpg" = ("dir_photo.jpg" : str).
Proof. split; by_running. Qed.

(** Witness of [storage_names_safe_and_compared]: two draws of the
    entropy source give two names, both safe. *)
Lemma storage_names_safe_and_compared_witness :
  generate_secure_filename host "photo.jpg"
  <> generate_secure_filename reseeded "photo.jpg"
  /\ forallb safe_char (generate_secure_filename host "photo.jpg") = true
  /\ forallb safe_char (generate_secure_filename reseeded "photo.jpg") = true.
Proof.
  destruct (storage_names_safe_and_compared host reseeded "photo.jpg")
    as ((_ & _ & _ & Hs1) & (_ & _ & _ & Hs2) & _ & Hdiff).
  split; [|split; [exact Hs1 | exact Hs2]].
  apply Hdiff. right. by_running.
Defined.

(** C5 fails as stated: two calls on one input that fall in the same
    second and draw the same eight random bytes return the same name.
    The two hosts differ in what the entropy source gives next. *)
Lemma same_draw_same_name :
  urandom replayed 8 <> urandom host 8
  /\ strftime (clock host 0) = strftime (clock replayed 0)
  /\ OS.token_bytes host 8 = OS.token_bytes replayed 8
  /\ generate_secure_filename host "photo.jpg"
     = generate_secure_filename replayed "photo.jpg".
Proof. repeat split; by_running. Qed.

(** Witness of [extension_checks_ignore_case]: [PHOTO.JPG]. *)
Lemma extension_checks_ignore_case_witness :
  lower (splitext "PHOTO.JPG").2 = (".jpg" : str)
  /\ bool_decide (lower (splitext "PHOTO.JPG").2 ∈ ALLOWED_EXTENSIONS) = true
  /\ is_allowed_file_type "PHOTO.JPG" "image/jpeg" = (true, None)
  /\ (upload_file host ∅ (upload "PHOTO.JPG" jpeg_bytes)).2
     <> (Failure TypeNotAllowed, 400).
Proof.
  destruct (extension_checks_ignore_case host ∅
              (upload "PHOTO.JPG" jpeg_bytes) "PHOTO.JPG" "image/jpeg")
    as (_ & _ & _ & Hcase).
  destruct (Hcase ".jpg") as (Hlow & Hgate & Hpolicy & Hup).
  - apply (bool_decide_unpack _). by_running.
  - replace (splitext "PHOTO.JPG").2 with (".JPG" : str) by by_running.
    unfold case_variant. cbn [list_ascii_of_string].
    repeat (constructor; [first [left; reflexivity | right; reflexivity]|]).
    constructor.
  - split; [exact Hlow|]. split; [exact Hgate|]. split.
    + rewrite Hpolicy. by_running.
    + apply (Hup shouted).
      * apply request_files_chunked; [reflexivity | by_running].
      * apply lookup_singleton_eq.
      * reflexivity.
Defined.

(** Mixed case passes as well: [Scan.JpEg] with JPEG content is
    accepted. *)
Example mixed_case_accepted :
  (upload_file host ∅ (upload "Scan.JpEg" jpeg_bytes)).2.2 = 200
  /\ is_allowed_file_type "Scan.JpEg" "image/jpeg" = (true, None).
Proof. split; by_running. Qed.

(** The exception path: when the stored file cannot be opened for
    hashing, the handler answers 500 with its fixed message and the file
    is gone. *)
Example hashing_failure_cleans_up :
  let h := open_broken [storage_path host photo] in
  upload_file h ∅ (upload "photo.jpg" jpeg_bytes)
  = (∅, (Failure (Text "Upload failed. Please try again."), 500)).
Proof. by_running. Qed.

(** The scenario of the specification: a small JPEG named [photo.jpg] is
    accepted with its detected type and stays on disk. *)
Example photo_accepted :
  (upload_file host ∅ (upload "photo.jpg" jpeg_bytes)).2
  = (Success "/api/files/photo_20240309_070559_031425364758697a.jpg"
             "photo.jpg" 6 "image/jpeg" "c6" instant, 200)
  /\ OS.path_exists (upload_file host ∅ (upload "photo.jpg" jpeg_bytes)).1
                    (storage_path host photo) = true.
Proof. split; by_running. Qed.

End Runs.

(** ** The further properties on concrete requests *)

Section MoreRuns.
Import Fixture Scenario.

Local Ltac by_running :=
  vm_compute; first [reflexivity | exact I | discriminate].

Local Ltac run_stored :=
  apply fixture_stored;
  [ apply request_files_chunked; [reflexivity | by_running]
  | apply lookup_singleton_eq
  | discriminate
  | unfold photo, payload; cbn [filename]; by_running
  | unfold storage_path, photo, payload; cbn [filename]; by_running
  | reflexivity ].

(** The JPEG of the fixture is accepted on the plain host. *)
Lemma photo_upload_accepted :
  upload_pipeline scan_file_for_viruses host ∅ (upload "photo.jpg" jpeg_bytes)
  = (<[storage_path host photo := stream photo]> ∅,
     (Success ("/api/files/" ++ generate_secure_filename host "photo.jpg")
              "photo.jpg" 6 "image/jpeg" "c6" instant, 200)).
Proof.
  apply (accepted_when scan_file_for_viruses host ∅ _ photo _ 6
           "i"%char ("mage/jpeg" : str)
           {| clean := true; threats := [] |} ("c6" : str)).
  - run_stored.
  - by_running.
  - by_running.
  - by_running.
  - reflexivity.
  - reflexivity.
  - by_running.
Qed.

(** Witness of [path_guard_accepts_joined_names]. *)
Lemma path_guard_accepts_joined_names_witness :
  is_path_safe host (PosixPath.join "/srv/app/uploads" "photo.jpg")
               "/srv/app/uploads" = true
  /\ spec_path_guard host (PosixPath.join "/srv/app/uploads" "photo.jpg")
                     "/srv/app/uploads" = true.
Proof.
  apply (path_guard_accepts_joined_names host "/srv/app/uploads" "photo.jpg").
  - left. reflexivity.
  - apply (bool_decide_unpack _). by_running.
  - discriminate.
  - discriminate.
Defined.

(** Witness of [upload_never_invalid_path]. *)
Lemma upload_never_invalid_path_witness :
  (upload_file host ∅ (upload "photo.jpg" jpeg_bytes)).2
  <> (Failure (Text "Invalid file path"), 400)
  /\ (forall file : FileStorage,
        is_path_safe host (storage_path host file) (upload_folder host) = true
        /\ spec_path_guard host (storage_path host file) (upload_folder host)
           = true).
Proof.
  apply (upload_never_invalid_path scan_file_for_viruses host ∅
           (upload "photo.jpg" jpeg_bytes)).
  left. reflexivity.
Defined.

(** Witness of [accepted_upload_facts]. *)
Lemma accepted_upload_facts_witness :
  exists file,
    files (upload "photo.jpg" jpeg_bytes) !! ("file" : str) = Some file
    /\ <[storage_path host photo := stream photo]> ∅
       = <[storage_path host file := stream file]> (∅ : filesys)
    /\ ("photo.jpg" : str) = filename file
    /\ "/api/files/" ++ generate_secure_filename host "photo.jpg"
       = "/api/files/" ++ generate_secure_filename host (filename file)
    /\ 6 = Z.of_nat (length (stream file))
    /\ 6 <= MAX_FILE_SIZE
    /\ libmagic host (storage_path host file) (stream file)
       = Returns ("image/jpeg" : str)
    /\ ext_registered (lower (splitext (filename file)).2) "image/jpeg"
    /\ ("c6" : str) = digest_of host (stream file).
Proof.
  exact (accepted_upload_facts scan_file_for_viruses host ∅ _
           (upload "photo.jpg" jpeg_bytes) _ _ _ _ _ _
           photo_upload_accepted).
Defined.

(** Witness of [hashing_failure_answers_500]. *)
Lemma hashing_failure_answers_500_witness :
  let h := open_broken [storage_path host photo] in
  upload_file h ∅ (upload "photo.jpg" jpeg_bytes)
  = (cleanup_file h (<[storage_path h photo := stream photo]> ∅)
                  (storage_path h photo),
     (Failure (Text "Upload failed. Please try again."), 500)).
Proof.
  intros h.
  apply (hashing_failure_answers_500 scan_file_for_viruses h ∅
           (upload "photo.jpg" jpeg_bytes) photo _ 6
           "i"%char ("mage/jpeg" : str) {| clean := true; threats := [] |}).
  - run_stored.
  - by_running.
  - by_running.
  - by_running.
  - reflexivity.
  - reflexivity.
  - apply elem_of_list_to_set, list_elem_of_here.
Defined.

(** Witness of [empty_extension_rejected]: the name [.jpg]. *)
Lemma empty_extension_rejected_witness :
  upload_file host ∅ (upload ".jpg" jpeg_bytes)
  = (∅, (Failure TypeNotAllowed, 400))
  /\ is_allowed_file_type (filename dotfile) "image/jpeg"
     = (false, Some ("Extension  not allowed" : str)).
Proof.
  apply (empty_extension_rejected scan_file_for_viruses host ∅
           (upload ".jpg" jpeg_bytes) dotfile "image/jpeg").
  - apply request_files_chunked; [reflexivity | by_running].
  - apply lookup_singleton_eq.
  - discriminate.
  - by_running.
Defined.

(** Witness of [get_file_confined]: a request for [../../etc/passwd]. *)
Lemma get_file_confined_witness :
  let name := secure_filename "../../etc/passwd" in
  (forall error,
      get_file Served.from_store Served.no_dirs host ∅ "../../etc/passwd"
      <> Refusal error 403)
  /\ (forall content headers,
        get_file Served.from_store Served.no_dirs host ∅ "../../etc/passwd"
        = Attachment content headers ->
        headers = security_headers
        /\ Served.from_store ∅ (upload_folder host) name = Some content)
  /\ ("/"%char ∉ name) /\ name <> "." /\ name <> ".."
  /\ spec_path_guard host (PosixPath.join (upload_folder host) name)
                     (upload_folder host) = true.
Proof.
  apply (get_file_confined Served.from_store Served.no_dirs host ∅
           "../../etc/passwd").
  left. reflexivity.
Defined.

(** Witness of [accepted_upload_is_served]. *)
Lemma accepted_upload_is_served_witness :
  exists file stored_name,
    files (upload "photo.jpg" jpeg_bytes) !! ("file" : str) = Some file
    /\ "/api/files/" ++ generate_secure_filename host "photo.jpg"
       = "/api/files/" ++ stored_name
    /\ get_file Served.from_store Served.no_dirs host
                (<[storage_path host photo := stream photo]> ∅) stored_name
       = Attachment (stream file) security_headers.
Proof.
  apply (accepted_upload_is_served Served.from_store Served.no_dirs
           scan_file_for_viruses host ∅ _ (upload "photo.jpg" jpeg_bytes)
           _ "photo.jpg" "image/jpeg" "c6" 6 instant).
  - intros fs' directory path content Hfile. exact Hfile.
  - exact photo_upload_accepted.
Defined.

(** Witness of [scanner_verdict_is_enforced]: a scanner that finds a
    threat in the JPEG. *)
Lemma scanner_verdict_is_enforced_witness :
  let fs1 : filesys := <[storage_path host photo := stream photo]> ∅ in
  (forall verdict,
      alarmed_scan fs1 (storage_path host photo) = Returns verdict ->
      clean verdict = false ->
      upload_pipeline alarmed_scan host ∅ (upload "photo.jpg" jpeg_bytes)
      = (cleanup_file host fs1 (storage_path host photo),
         (Failure (Text "File failed security scan"), 400)))
  /\ (forall e,
        alarmed_scan fs1 (storage_path host photo) = Raises e ->
        upload_pipeline alarmed_scan host ∅ (upload "photo.jpg" jpeg_bytes)
        = (cleanup_file host fs1 (storage_path host photo), on_error e)).
Proof.
  intros fs1.
  apply (scanner_verdict_is_enforced alarmed_scan host ∅
           (upload "photo.jpg" jpeg_bytes) photo fs1 6
           "i"%char ("mage/jpeg" : str)).
  - run_stored.
  - by_running.
  - by_running.
  - by_running.
Defined.

(** The alarmed scanner at work: the JPEG is refused and removed. *)
Example alarmed_scan_refuses :
  upload_pipeline alarmed_scan host ∅ (upload "photo.jpg" jpeg_bytes)
  = (∅, (Failure (Text "File failed security scan"), 400)).
Proof. by_running. Qed.

End MoreRuns.
